(** * Parcel tracker: route progress, geo-distance and ETA engine

    A shallow embedding of [my-app/src/App.jsx] and the properties of its
    computational core.

    Numbers.  JavaScript has one number type, the IEEE-754 binary64 float.
    The embedding uses three carriers, chosen by what the code does with
    the number:
    - the waypoint index [idx] only ever holds small integers: [Z];
    - [formatETA] uses comparisons, [/], [%], [Math.floor] and
      [Math.round], all of them exactly specified by the language, so it is
      embedded on Rocq's primitive binary64 floats and evaluates bit for
      bit;
    - [haversineMeters] and [pathDistanceMeters] go through [Math.sin],
      [Math.cos], [Math.atan2] and [**], which the language leaves
      implementation-approximated.  They are embedded twice.  [Geo64] is
      the program on binary64, with those four functions as a parameter
      (the engine): it carries what holds or fails whatever the engine,
      or on every engine that returns given values at given arguments.
      [Geo] is the same code in exact arithmetic on the real numbers; it
      carries the statements about the routes of the registry, whose
      legs are far from the roundings that separate the two.  The one
      place where a non-finite value can arise from finite reals, the
      division in [progressPct], is embedded on reals extended with NaN
      and the infinities. *)

From Stdlib Require Import Floats.
From Stdlib Require Import ZArith QArith Qround Reals Lra Lia.
From Stdlib Require Lqa.
From Stdlib Require Import String Ascii List.
From stdpp Require Import gmap strings pretty.
Import ListNotations.

(* ================================================================== *)
(** * Part I: the embedding                                            *)
(* ================================================================== *)

(** ** Strings: [String.prototype.toUpperCase] and [trim]

    Tracking ids are sequences of ASCII characters.  On those,
    [toUpperCase] maps [a]..[z] to [A]..[Z] and leaves every other
    character alone, and [trim] strips TAB, LF, VT, FF, CR and SPACE from
    both ends. *)
Module JsString.

Definition upper_char (c : ascii) : ascii :=
  let n := N_of_ascii c in
  if ((97 <=? n) && (n <=? 122))%N then ascii_of_N (n - 32) else c.

Fixpoint toUpperCase (s : string) : string :=
  match s with
  | EmptyString => EmptyString
  | String c r => String (upper_char c) (toUpperCase r)
  end.

Definition is_space (c : ascii) : bool :=
  let n := N_of_ascii c in
  (((9 <=? n) && (n <=? 13)) || (n =? 32))%N.

Fixpoint trimStart (s : string) : string :=
  match s with
  | EmptyString => EmptyString
  | String c r => if is_space c then trimStart r else s
  end.

Fixpoint trimEnd (s : string) : string :=
  match s with
  | EmptyString => EmptyString
  | String c r =>
      match trimEnd r with
      | EmptyString => if is_space c then EmptyString else String c EmptyString
      | r' => String c r'
      end
  end.

Definition trim (s : string) : string := trimEnd (trimStart s).

(** Strings made of white space only. *)
Fixpoint all_space (s : string) : bool :=
  match s with
  | EmptyString => true
  | String c r => is_space c && all_space r
  end.

(** [haystack.includes(needle)] *)
Fixpoint includes (needle haystack : string) : bool :=
  String.prefix needle haystack ||
  match haystack with
  | EmptyString => false
  | String _ r => includes needle r
  end.

End JsString.

(** ** Coordinates and the route registry [ROUTES] *)

(** A waypoint is the two-element array [[lat, lon]], in decimal degrees. *)
Definition Coordinate : Type := (R * R)%type.

(** The latitude and longitude ranges of the data model. *)
Definition valid_coordinate (p : Coordinate) : Prop :=
  (-90 <= fst p <= 90 /\ -180 <= snd p <= 180)%R.

Module Routes.

Record RouteTemplate := {
  trackingId : string;
  status : string;
  carrier : string;
  origin : string;
  destination : string;
  path : list Coordinate
}.

Open Scope R_scope.

Definition CHN123 : RouteTemplate := {|
  trackingId := "CHN123";
  status := "In Transit";
  carrier := "Phoenix Express";
  origin := "Chennai Central";
  destination := "Adyar, Chennai";
  path := [ (13.0827, 80.2707); (13.0604, 80.2496); (13.0431, 80.2460);
            (13.0287, 80.2478); (13.0214, 80.2526); (13.0067, 80.2570);
            (13.0012, 80.2551) ]
|}.

Definition BLR555 : RouteTemplate := {|
  trackingId := "BLR555";
  status := "Out for Delivery";
  carrier := "SouthLine Logistics";
  origin := "Bengaluru";
  destination := "Mysuru";
  path := [ (12.9716, 77.5946); (12.8000, 77.4000); (12.6000, 76.9000);
            (12.4500, 76.6500); (12.2958, 76.6394) ]
|}.

Definition MUM777 : RouteTemplate := {|
  trackingId := "MUM777";
  status := "In Transit";
  carrier := "Western Courier";
  origin := "Mumbai";
  destination := "Pune";
  path := [ (19.0760, 72.8777); (18.9500, 73.1500); (18.8000, 73.3000);
            (18.6500, 73.5000); (18.5204, 73.8567) ]
|}.

(** The object literal [ROUTES], read by string key.  No inherited
    property of a plain object has a name without a lower-case letter, so
    a key that went through [toUpperCase] only ever meets the three own
    properties. *)
Definition ROUTES : gmap string RouteTemplate :=
  <["CHN123" := CHN123]> (<["BLR555" := BLR555]> (<["MUM777" := MUM777]> ∅)).

End Routes.

(** ** [fetchTracking]: the simulated lookup *)
Module Resolver.
Import Routes.

(** [new Error(msg)] *)
Record JsError := { message : string }.

(** The object a successful lookup resolves to: the template's fields
    spread into a fresh object, plus [lastUpdated]. *)
Record Info := {
  info_trackingId : string;
  info_status : string;
  info_carrier : string;
  info_origin : string;
  info_destination : string;
  info_path : list Coordinate;
  lastUpdated : string
}.

(** How the promise settles (the 500 ms delay is not modelled). *)
Inductive Settled :=
| Resolved (data : Info)
| Rejected (err : JsError).

(** [{...data, lastUpdated: now}] *)
Definition stamp (data : RouteTemplate) (now : string) : Info := {|
  info_trackingId := trackingId data;
  info_status := status data;
  info_carrier := carrier data;
  info_origin := origin data;
  info_destination := destination data;
  info_path := path data;
  lastUpdated := now
|}.

(** [fetchTracking(trackingId)]; [now] is what
    [new Date().toISOString()] returns when the timeout fires. *)
Definition fetchTracking (now : string) (id : string) : Settled :=
  match ROUTES !! JsString.toUpperCase id with
  | None => Rejected {| message := "Tracking ID not found" |}
  | Some data => Resolved (stamp data now)
  end.

(** The lookup [handleSearch] starts: [fetchTracking(trackingId.trim())]. *)
Definition search_lookup (now : string) (raw : string) : Settled :=
  fetchTracking now (JsString.trim raw).

(** What [handleSearch] and [fetchTracking] together do to the text the
    user typed before it is used as a key. *)
Definition normalize (raw : string) : string :=
  JsString.toUpperCase (JsString.trim raw).

(** A message identifies an id when the id, as typed or normalized,
    occurs in it. *)
Definition identifies (msg id : string) : bool :=
  JsString.includes id msg || JsString.includes (JsString.toUpperCase id) msg.

(** The route data of a result: everything but the time stamp. *)
Definition route_data (r : Settled) : option RouteTemplate :=
  match r with
  | Resolved i => Some {| trackingId := info_trackingId i;
                          status := info_status i;
                          carrier := info_carrier i;
                          origin := info_origin i;
                          destination := info_destination i;
                          path := info_path i |}
  | Rejected _ => None
  end.

End Resolver.

(** ** Geo helpers: [toRad], [haversineMeters], [pathDistanceMeters] *)
Module Geo.
Open Scope R_scope.

Definition toRad (deg : R) : R := (deg * PI) / 180.

(** [Math.atan2(y, x)] on finite arguments. *)
Definition atan2 (y x : R) : R :=
  if Rlt_dec 0 x then atan (y / x)
  else if Rlt_dec x 0 then
    if Rle_dec 0 y then atan (y / x) + PI else atan (y / x) - PI
  else if Rlt_dec 0 y then PI / 2
  else if Rlt_dec y 0 then - (PI / 2)
  else 0.

Definition haversineMeters (p q : Coordinate) : R :=
  let '(lat1, lon1) := p in
  let '(lat2, lon2) := q in
  let R := 6371000 in
  let dLat := toRad (lat2 - lat1) in
  let dLon := toRad (lon2 - lon1) in
  let a :=
    sin (dLat / 2) ^ 2 +
    cos (toRad lat1) * cos (toRad lat2) * sin (dLon / 2) ^ 2 in
  let c := 2 * atan2 (sqrt a) (sqrt (1 - a)) in
  R * c.

(** The intermediate value [a] of [haversineMeters], named for the
    proofs. *)
Definition hav_a (lat1 lon1 lat2 lon2 : R) : R :=
  sin (toRad (lat2 - lat1) / 2) ^ 2 +
  cos (toRad lat1) * cos (toRad lat2) * sin (toRad (lon2 - lon1) / 2) ^ 2.

(** One turn of the loop body [d += haversineMeters(path[i - 1], path[i])]. *)
Definition loop_body (path : list Coordinate) (d : R) (i : nat) : R :=
  d + haversineMeters (nth (i - 1) path (0, 0)) (nth i path (0, 0)).

(** [for (let i = 1; i < path.length; i++) ...], started at [d = 0]. *)
Definition pathDistanceMeters (path : list Coordinate) : R :=
  fold_left (loop_body path) (seq 1 (length path - 1)) 0.

(** The specification's wording: the sum of the distance over consecutive
    pairs of the path. *)
Fixpoint consecutive_sum (path : list Coordinate) : R :=
  match path with
  | p :: (q :: _) as rest => haversineMeters p q + consecutive_sum rest
  | _ => 0
  end.

(** [arr.slice(start, end)], negative arguments counting from the end. *)
Definition relative_index (len k : Z) : Z :=
  if (k <? 0)%Z then Z.max (len + k) 0 else Z.min k len.

Definition slice {A : Type} (start stop : Z) (arr : list A) : list A :=
  let len := Z.of_nat (length arr) in
  let k := relative_index len start in
  let final := relative_index len stop in
  firstn (Z.to_nat (final - k)) (skipn (Z.to_nat k) arr).

(** Two coordinate pairs that name one point of the sphere: the same
    pair, the same pole under any two longitudes, or one point of the
    antimeridian written with longitudes 360 degrees apart. *)
Definition same_point (p q : Coordinate) : Prop :=
  fst p = fst q /\
  (snd p = snd q \/ fst p = 90 \/ fst p = -90 \/
   snd q - snd p = 360 \/ snd q - snd p = -360).

End Geo.

(** ** [formatETA] *)
Module Eta.

(** The exact value of a finite float (0 on NaN and the infinities, where
    no caller below uses it). *)
Definition value (x : float) : Q :=
  match Prim2SF x with
  | S754_finite s m e =>
      let z := if s then Z.neg m else Z.pos m in
      if (0 <=? e)%Z then inject_Z (z * 2 ^ e)
      else z # Pos.pow 2 (Z.to_pos (- e))
  | _ => 0%Q
  end.

(** [Math.floor] and [Math.round] of a finite number, as the integer they
    return; [Math.round] rounds halves towards positive infinity. *)
Definition Math_floor (q : Q) : Z := Qfloor q.
Definition Math_round (q : Q) : Z := Qfloor (q + (1 # 2)).

Definition truncate (q : Q) : Z :=
  if Qle_bool 0 q then Qfloor q else Qceiling q.

(** [x % y] on finite numbers, [y] non-zero: exact, with the sign of [x]. *)
Definition remainder (x y : Q) : Q := (x - y * inject_Z (truncate (x / y)))%Q.

(** The literal returned for an unusable input, byte for byte as it is in
    the source file. *)
Definition placeholder : string := "â€”".

Section Format.

(** The text [Number::toString] gives an integer of magnitude 2^53 or
    more: the shortest digits that read back as the same number, in
    exponent notation from 10^21 on (provided by the engine). *)
Variable exponential : Z -> string.

(** [`${n}`] for an integer-valued number [n]. *)
Definition Number_toString (n : Z) : string :=
  if (Z.abs n <? 2 ^ 53)%Z then pretty n else exponential n.

Definition formatETA (minutes : float) : string :=
  if (negb (is_finite minutes) || (minutes <? 0)%float)%bool then placeholder
  else if (minutes <? 60)%float then
    (Number_toString (Math_round (value minutes)) ++ " min")%string
  else
    let h := Math_floor (value (minutes / 60)%float) in
    let m := Math_round (remainder (value minutes) 60) in
    (Number_toString h ++ "h " ++ Number_toString m ++ "m")%string.

End Format.

End Eta.

(** ** The component [App]: state, derived values and events *)
Module App.
Import Resolver.

(** JavaScript numbers that may be non-finite. *)
Inductive num :=
| NaN
| Infinity (negative : bool)
| Fin (r : R).

(** [x / y] on finite operands (zeros carry no sign here). *)
Definition div (x y : R) : num :=
  if Req_dec_T y 0 then
    if Req_dec_T x 0 then NaN
    else Infinity (if Rlt_dec x 0 then true else false)
  else Fin (x / y).

(** [x * k] for a finite positive constant [k]. *)
Definition times (x : num) (k : R) : num :=
  match x with
  | Fin r => Fin (r * k)
  | other => other
  end.

(** [Math.max(k, x)] and [Math.min(k, x)] for a finite constant [k]: NaN
    when [x] is NaN. *)
Definition Math_max (k : R) (x : num) : num :=
  match x with
  | NaN => NaN
  | Infinity true => Fin k
  | Infinity false => Infinity false
  | Fin r => Fin (Rmax k r)
  end.

Definition Math_min (k : R) (x : num) : num :=
  match x with
  | NaN => NaN
  | Infinity true => Infinity true
  | Infinity false => Fin k
  | Fin r => Fin (Rmin k r)
  end.

(** [x || 0]: NaN and 0 are the falsy numbers. *)
Definition or_zero (x : num) : num :=
  match x with
  | NaN => Fin 0
  | Fin r => if Req_dec_T r 0 then Fin 0 else Fin r
  | other => other
  end.

Record DistanceSnapshot := {
  total : R;
  covered : R;
  remaining : R
}.

(** The React state of [App] that the core reads and writes. *)
Record State := {
  trackingId : string;
  loading : bool;
  error : string;
  info : option Info;
  idx : Z;
  follow : bool
}.

Definition initial : State := {|
  trackingId := ""; loading := false; error := "";
  info := None; idx := 0; follow := true
|}.

Definition speedKmh : R := 35.

(** [distances] (useMemo over [info] and [idx]) *)
Definition distances (info : option Info) (idx : Z) : option DistanceSnapshot :=
  match info with
  | None => None
  | Some i =>
      let total := Geo.pathDistanceMeters (info_path i) in
      let covered := Geo.pathDistanceMeters (Geo.slice 0 (idx + 1) (info_path i)) in
      let remaining := Rmax 0 (total - covered) in
      Some {| total := total; covered := covered; remaining := remaining |}
  end.

(** [etaMinutes] (useMemo over [distances]) *)
Definition etaMinutes (distances : option DistanceSnapshot) : option R :=
  match distances with
  | None => None
  | Some d =>
      let metersPerMin := ((speedKmh * 1000) / 60)%R in
      Some (remaining d / metersPerMin)%R
  end.

(** [progressPct] (useMemo over [distances]) *)
Definition progressPct (distances : option DistanceSnapshot) : num :=
  match distances with
  | None => Fin 0
  | Some d =>
      or_zero (Math_min 100 (Math_max 0 (times (div (covered d) (total d)) 100)))
  end.

(** The updater passed to [setIdx] by the 15 s interval. *)
Definition advance (i : Info) (prev : Z) : Z :=
  let next := Z.min (prev + 1) (Z.of_nat (length (info_path i)) - 1) in
  next.

(** One firing of the interval.  The interval exists only while [info] is
    set: the effect returns early on [null] and its cleanup clears the
    timer whenever [info] changes. *)
Definition tick (s : State) : State :=
  match info s with
  | None => s
  | Some i =>
      {| trackingId := trackingId s; loading := loading s; error := error s;
         info := info s; idx := advance i (idx s); follow := follow s |}
  end.

Fixpoint ticks (n : nat) (s : State) : State :=
  match n with
  | O => s
  | S k => tick (ticks k s)
  end.

(** [handleSearch]: the synchronous part, then the settling of the
    promise ([then] / [catch] / [finally]). *)
Definition search_started (s : State) : State :=
  {| trackingId := trackingId s; loading := true; error := "";
     info := None; idx := 0; follow := follow s |}.

Definition search_settled (r : Settled) (s : State) : State :=
  match r with
  | Resolved data =>
      {| trackingId := trackingId s; loading := false; error := error s;
         info := Some data; idx := idx s; follow := follow s |}
  | Rejected err =>
      {| trackingId := trackingId s; loading := false;
         error := if String.eqb (message err) "" then "Failed to fetch"
                  else message err;
         info := info s; idx := idx s; follow := follow s |}
  end.

Definition handleSearch (now : string) (s : State) : State :=
  search_settled (search_lookup now (trackingId s)) (search_started s).

Definition resetAll (s : State) : State :=
  {| trackingId := ""; loading := loading s; error := "";
     info := None; idx := 0; follow := true |}.

End App.

(** ** What the drawing effect hands to the map *)
Module MapView.
Import Resolver.

(** [arr[k]] for an integer [k]: [undefined] outside the array. *)
Definition index {A : Type} (arr : list A) (k : Z) : option A :=
  if (k <? 0)%Z then None else nth_error arr (Z.to_nat k).

(** [const upto = Math.max(1, idx + 1)] *)
Definition upto (idx : Z) : Z := Z.max 1 (idx + 1).

(** [info.path.slice(0, upto)]: the travelled polyline. *)
Definition travelled (i : Info) (idx : Z) : list Coordinate :=
  Geo.slice 0 (upto idx) (info_path i).

(** [info.path[Math.min(idx, info.path.length - 1)]]: the marker. *)
Definition currentLatLng (i : Info) (idx : Z) : option Coordinate :=
  index (info_path i) (Z.min idx (Z.of_nat (length (info_path i)) - 1)).

(** What the effect asks of the viewport. *)
Inductive Camera :=
| FitBounds (line : list Coordinate)
| PanTo (target : option Coordinate)
| Stay.

Definition camera (i : Info) (idx : Z) (follow : bool) : Camera :=
  if (idx =? 0)%Z then FitBounds (info_path i)
  else if follow then PanTo (currentLatLng i idx)
  else Stay.

End MapView.

(** ** The component as an event machine

    The state of [App] together with what lives outside React state: the
    lookup in flight and the live interval.  An interval is a closure over
    the [info] of the render that created it; the effect that owns it
    depends on [info] alone, so its cleanup and body run exactly when
    [info] is replaced. *)
Module Machine.
Import Resolver App.

Record Machine := {
  st : State;
  (** the argument of the [fetchTracking] call that has not settled *)
  pending : option string;
  (** the [info] captured by the interval that has not been cleared *)
  timer : option Info
}.

Inductive Event :=
| Typed (text : string)      (* onChange of the text input *)
| Submit                     (* the form is submitted: handleSearch *)
| Settle (now : string)      (* the pending promise settles at [now] *)
| Tick                       (* the interval fires *)
| Clear                      (* the Clear button: resetAll *)
| Follow (checked : bool).   (* onChange of the checkbox *)

Definition init : Machine :=
  {| st := initial; pending := None; timer := None |}.

Definition is_some {A : Type} (o : option A) : bool :=
  match o with Some _ => true | None => false end.

(** Which events the page can deliver: the submit button is
    [disabled={!trackingId || loading}], the checkbox is rendered under
    [info &&] only, a promise settles once, a cleared interval is
    silent. *)
Definition enabled (e : Event) (m : Machine) : bool :=
  match e with
  | Typed _ => true
  | Submit =>
      negb (String.eqb (trackingId (st m)) "") && negb (loading (st m))
  | Settle _ => is_some (pending m)
  | Tick => is_some (timer m)
  | Clear => true
  | Follow _ => is_some (info (st m))
  end.

Definition with_trackingId (text : string) (s : State) : State :=
  {| trackingId := text; loading := loading s; error := error s;
     info := info s; idx := idx s; follow := follow s |}.

Definition with_idx (k : Z) (s : State) : State :=
  {| trackingId := trackingId s; loading := loading s; error := error s;
     info := info s; idx := k; follow := follow s |}.

Definition with_follow (b : bool) (s : State) : State :=
  {| trackingId := trackingId s; loading := loading s; error := error s;
     info := info s; idx := idx s; follow := b |}.

Definition step (e : Event) (m : Machine) : Machine :=
  match e with
  | Typed text =>
      {| st := with_trackingId text (st m);
         pending := pending m; timer := timer m |}
  | Submit =>
      (* setInfo(null): the cleanup of a live interval runs, the effect
         body returns early *)
      {| st := search_started (st m);
         pending := Some (JsString.trim (trackingId (st m)));
         timer := match info (st m) with
                  | Some _ => None
                  | None => timer m
                  end |}
  | Settle now =>
      match pending m with
      | None => m
      | Some id =>
          let r := fetchTracking now id in
          {| st := search_settled r (st m);
             pending := None;
             (* setInfo(data): a fresh object, so the effect clears what
                is there and starts an interval over [data] *)
             timer := match r with
                      | Resolved data => Some data
                      | Rejected _ => timer m
                      end |}
      end
  | Tick =>
      match timer m with
      | None => m
      | Some i =>
          {| st := with_idx (advance i (idx (st m))) (st m);
             pending := pending m; timer := timer m |}
      end
  | Clear =>
      (* resetAll ends with clearInterval(timerRef.current) *)
      {| st := resetAll (st m); pending := pending m; timer := None |}
  | Follow checked =>
      {| st := with_follow checked (st m);
         pending := pending m; timer := timer m |}
  end.

(** The states the page can be brought to. *)
Inductive reachable : Machine -> Prop :=
| reach_init : reachable init
| reach_step e m :
    reachable m -> enabled e m = true -> reachable (step e m).

(** What every reachable state satisfies: the live interval is the one
    over the current [info]; [loading] tells whether a lookup is in
    flight; no route is shown while one is; the index is 0 without a
    route and within the path of the route otherwise, and a route is
    always one that [fetchTracking] resolved. *)
Definition invariant (m : Machine) : Prop :=
  timer m = info (st m) /\
  loading (st m) = is_some (pending m) /\
  (is_some (pending m) = true -> info (st m) = None) /\
  match info (st m) with
  | None => idx (st m) = 0%Z
  | Some i =>
      (0 <= idx (st m) <= Z.of_nat (length (info_path i)) - 1)%Z /\
      exists now id, fetchTracking now id = Resolved i
  end.

(** Delivering a list of events in order, skipping the disabled ones. *)
Fixpoint run (es : list Event) (m : Machine) : Machine :=
  match es with
  | [] => m
  | e :: rest => run rest (if enabled e m then step e m else m)
  end.

End Machine.

(** ** The layers on the map

    The drawing effect and [resetAll] keep three Leaflet layers in refs.
    A layer is an object: [lid] stands for its identity.  Of the map only
    the list of layers added to it is modelled, in the case where the map
    exists ([mapRef.current] is set). *)
Module Layers.
Import Resolver MapView.

Inductive Shape :=
| Polyline (latlngs : list Coordinate) (weight : Z) (opacity : option Q)
| Marker (latlng : Coordinate) (title : string).

Record Layer := { lid : nat; shape : Shape }.

Record View := {
  onMap : list Layer;
  nextId : nat;
  fullLineRef : option Layer;
  travelledRef : option Layer;
  markerRef : option Layer
}.

Definition empty : View :=
  {| onMap := []; nextId := 0;
     fullLineRef := None; travelledRef := None; markerRef := None |}.

(** [map.removeLayer(layer)] *)
Definition removeLayer (l : Layer) (layers : list Layer) : list Layer :=
  List.filter (fun x => negb (lid x =? lid l)%nat) layers.

(** [if (ref.current) { map.removeLayer(ref.current); ref.current = null; }] *)
Definition drop (ref : option Layer) (layers : list Layer) : list Layer :=
  match ref with
  | Some l => removeLayer l layers
  | None => layers
  end.

(** The three such statements, as in the effect and in [resetAll]. *)
Definition clear (v : View) : View :=
  {| onMap := drop (markerRef v)
                (drop (travelledRef v) (drop (fullLineRef v) (onMap v)));
     nextId := nextId v;
     fullLineRef := None; travelledRef := None; markerRef := None |}.

(** The body of the drawing effect once [map] and [info] are there.
    [None]: the marker has no position to be built from. *)
Definition draw (i : Info) (idx : Z) (v : View) : option View :=
  let v0 := clear v in
  let full := {| lid := nextId v0;
                 shape := Polyline (info_path i) 4 (Some (6 # 10)) |} in
  let trav := {| lid := S (nextId v0);
                 shape := Polyline (travelled i idx) 6 None |} in
  match currentLatLng i idx with
  | None => None
  | Some p =>
      let mark := {| lid := S (S (nextId v0));
                     shape := Marker p ("Parcel " ++ info_trackingId i) |} in
      Some {| onMap := onMap v0 ++ [full; trav; mark];
              nextId := S (S (S (nextId v0)));
              fullLineRef := Some full;
              travelledRef := Some trav;
              markerRef := Some mark |}
  end.

(** The layers the refs hold. *)
Definition held (v : View) : list Layer :=
  match fullLineRef v with Some l => [l] | None => [] end ++
  match travelledRef v with Some l => [l] | None => [] end ++
  match markerRef v with Some l => [l] | None => [] end.

(** The views that drawing and clearing lead to. *)
Inductive drawn : View -> Prop :=
| drawn_empty : drawn empty
| drawn_clear v : drawn v -> drawn (clear v)
| drawn_draw i idx v v' : drawn v -> draw i idx v = Some v' -> drawn v'.

End Layers.

(** ** The geo helpers on binary64

    The same three functions as in [Geo], on the numbers the program
    runs on.  Arithmetic, comparison and [Math.sqrt] are the IEEE-754
    operations of Rocq's primitive floats.  [Math.sin], [Math.cos],
    [Math.atan2] and [**] are provided by the engine and left
    implementation-approximated by the language: they are a parameter. *)
Module Geo64.
Local Open Scope float_scope.

Record Engine := {
  Math_sin : float -> float;
  Math_cos : float -> float;
  Math_atan2 : float -> float -> float;
  Math_pow : float -> float -> float
}.

(** The results ECMA-262 fixes exactly for [Math.sin], [Math.cos],
    [Math.atan2] and [Number::exponentiate], as far as they are used
    below. *)
Definition ecma262 (E : Engine) : Prop :=
  Math_sin E 0 = 0 /\
  Math_cos E 0 = 1 /\
  Math_pow E 0 2 = 0 /\
  (forall y, Math_atan2 E y nan = nan) /\
  (forall x, (0 <? x) = true -> Math_atan2 E 0 x = 0).

(** The correctly rounded sine, cosine and square at the arguments that
    the leg from (-87.5, -180) to (87.5, 0) produces: 87.5 and 90 degrees
    in radians.  IEEE-quality math libraries return these values. *)
Definition reference_values (E : Engine) : Prop :=
  Math_sin E 0x1.86f4291ecf2f3p+0 = 0x1.ff833f9da45f7p-1 /\
  Math_sin E 0x1.921fb54442d18p+0 = 1 /\
  Math_cos E 0x1.86f4291ecf2f3p+0 = 0x1.65547c4694e32p-5 /\
  Math_cos E (-0x1.86f4291ecf2f3p+0) = 0x1.65547c4694e32p-5 /\
  Math_pow E 0x1.ff833f9da45f7p-1 2 = 0x1.ff069da0c0ad2p-1 /\
  Math_pow E 1 2 = 1.

Definition Math_PI : float := 0x1.921fb54442d18p+1.

(** [Math.max(x, y)]: NaN if either is, and +0 above -0. *)
Definition Math_max (x y : float) : float :=
  if (is_nan x || is_nan y)%bool then nan
  else if x <? y then y
  else if y <? x then x
  else if get_sign x then y else x.

Definition Coordinate64 : Type := (float * float)%type.

Definition valid_coordinate64 (p : Coordinate64) : bool :=
  ((-90 <=? fst p) && (fst p <=? 90) &&
   (-180 <=? snd p) && (snd p <=? 180))%bool.

Record DistanceSnapshot64 := {
  total : float;
  covered : float;
  remaining : float
}.

Section WithEngine.
Variable E : Engine.

Definition toRad (deg : float) : float := (deg * Math_PI) / 180.

Definition haversineMeters (p q : Coordinate64) : float :=
  let '(lat1, lon1) := p in
  let '(lat2, lon2) := q in
  let R := 6371000 in
  let dLat := toRad (lat2 - lat1) in
  let dLon := toRad (lon2 - lon1) in
  let a :=
    Math_pow E (Math_sin E (dLat / 2)) 2 +
    Math_cos E (toRad lat1) * Math_cos E (toRad lat2) *
    Math_pow E (Math_sin E (dLon / 2)) 2 in
  let c := 2 * Math_atan2 E (PrimFloat.sqrt a) (PrimFloat.sqrt (1 - a)) in
  R * c.

Definition loop_body (path : list Coordinate64) (d : float) (i : nat) : float :=
  d + haversineMeters (nth (i - 1) path (0, 0)) (nth i path (0, 0)).

Definition pathDistanceMeters (path : list Coordinate64) : float :=
  fold_left (loop_body path) (seq 1 (length path - 1)) 0.

(** The distances of the consecutive pairs of a path, in path order: each
    pair measured forwards, and each pair measured backwards. *)
Fixpoint legs (path : list Coordinate64) : list float :=
  match path with
  | p :: (q :: _) as rest => haversineMeters p q :: legs rest
  | _ => []
  end.

Fixpoint legs_back (path : list Coordinate64) : list float :=
  match path with
  | p :: (q :: _) as rest => haversineMeters q p :: legs_back rest
  | _ => []
  end.

(** Adding a list of numbers to [d] one after the other, as the loop
    does. *)
Definition add_in_order (d : float) (terms : list float) : float :=
  fold_left PrimFloat.add terms d.

(** The body of [distances] for a route with this path. *)
Definition distances (path : list Coordinate64) (idx : Z) : DistanceSnapshot64 :=
  let total := pathDistanceMeters path in
  let covered := pathDistanceMeters (Geo.slice 0 (idx + 1) path) in
  let remaining := Math_max 0 (total - covered) in
  {| total := total; covered := covered; remaining := remaining |}.

End WithEngine.

(** A route of two valid waypoints that are almost antipodal. *)
Definition near_antipodal : list Coordinate64 := [(-87.5, -180); (87.5, 0)].

End Geo64.

(** ** The waypoints of the registry *)
Definition registered_waypoint (p : Coordinate) : Prop :=
  exists key data, Routes.ROUTES !! key = Some data /\ In p (Routes.path data).

(* ================================================================== *)
(** * Part II: properties                                              *)
(* ================================================================== *)

(** ** Normalization and lookup *)
Section ResolverProperties.
Import JsString Routes Resolver.
Local Open Scope string_scope.

Example normalize_examples :
  trim "  chn 123
 " = "chn 123" /\
  toUpperCase "chn123-zZ" = "CHN123-ZZ" /\
  normalize " blr555 " = "BLR555".
Proof. repeat split. Qed.

Example fetchTracking_examples :
  fetchTracking "2024-05-01T10:00:00.000Z" "mum777" =
    Resolved (stamp MUM777 "2024-05-01T10:00:00.000Z") /\
  fetchTracking "2024-05-01T10:00:00.000Z" "" =
    Rejected {| message := "Tracking ID not found" |}.
Proof. split; reflexivity. Qed.

Lemma upper_char_idem c : upper_char (upper_char c) = upper_char c.
Proof.
  destruct c as [[] [] [] [] [] [] [] []]; reflexivity.
Qed.

Lemma toUpperCase_idem s : toUpperCase (toUpperCase s) = toUpperCase s.
Proof.
  induction s as [|c r IH]; simpl; [reflexivity|].
  now rewrite upper_char_idem, IH.
Qed.

Lemma trimStart_padding ws s :
  all_space ws = true -> trimStart (ws ++ s) = trimStart s.
Proof.
  induction ws as [|c r IH]; simpl; intros H; [reflexivity|].
  apply andb_prop in H as [Hc Hr]. rewrite Hc. auto.
Qed.

Lemma trimEnd_all_space ws : all_space ws = true -> trimEnd ws = EmptyString.
Proof.
  induction ws as [|c r IH]; simpl; intros H; [reflexivity|].
  apply andb_prop in H as [Hc Hr]. now rewrite (IH Hr), Hc.
Qed.

Lemma trimEnd_padding s ws :
  all_space ws = true -> trimEnd (s ++ ws) = trimEnd s.
Proof.
  intros H. induction s as [|c r IH]; simpl.
  - now apply trimEnd_all_space.
  - now rewrite IH.
Qed.

Lemma trimStart_all_space ws : all_space ws = true -> trimStart ws = EmptyString.
Proof.
  induction ws as [|c r IH]; simpl; intros H; [reflexivity|].
  apply andb_prop in H as [Hc Hr]. rewrite Hc. auto.
Qed.

Lemma trimStart_append s ws :
  all_space ws = true ->
  trimStart (s ++ ws) = trimStart s ++ ws \/
  (trimStart (s ++ ws) = EmptyString /\ trimStart s = EmptyString).
Proof.
  intros H. induction s as [|c r IH]; simpl.
  - right. split; [now apply trimStart_all_space | reflexivity].
  - destruct (is_space c); [exact IH | now left].
Qed.

Lemma trim_padding ws1 s ws2 :
  all_space ws1 = true -> all_space ws2 = true ->
  trim (ws1 ++ s ++ ws2) = trim s.
Proof.
  intros H1 H2. unfold trim. rewrite (trimStart_padding _ _ H1).
  destruct (trimStart_append s ws2 H2) as [E | [E1 E2]].
  - rewrite E. now apply trimEnd_padding.
  - now rewrite E1, E2.
Qed.

Lemma is_space_upper c : is_space (upper_char c) = is_space c.
Proof.
  destruct c as [[] [] [] [] [] [] [] []]; reflexivity.
Qed.

Lemma trimStart_upper s : trimStart (toUpperCase s) = toUpperCase (trimStart s).
Proof.
  induction s as [|c r IH]; simpl; [reflexivity|].
  rewrite is_space_upper. now destruct (is_space c).
Qed.

Lemma trimEnd_upper s : trimEnd (toUpperCase s) = toUpperCase (trimEnd s).
Proof.
  induction s as [|c r IH]; simpl; [reflexivity|].
  rewrite IH, is_space_upper.
  destruct (trimEnd r); simpl; [now destruct (is_space c) | reflexivity].
Qed.

Lemma trim_upper s : trim (toUpperCase s) = toUpperCase (trim s).
Proof. unfold trim. now rewrite trimStart_upper, trimEnd_upper. Qed.

Lemma fetchTracking_upper now id :
  fetchTracking now (toUpperCase id) = fetchTracking now id.
Proof. unfold fetchTracking. now rewrite toUpperCase_idem. Qed.

(** Trimming is the caller's: [fetchTracking] itself looks a padded id up
    as it is. *)
Example fetchTracking_keeps_padding :
  fetchTracking "2024-05-01T10:00:00.000Z" " CHN123 " =
    Rejected {| message := "Tracking ID not found" |} /\
  search_lookup "2024-05-01T10:00:00.000Z" " CHN123 " =
    Resolved (stamp CHN123 "2024-05-01T10:00:00.000Z").
Proof. split; reflexivity. Qed.

(** C4, as the code has it: an id whose upper-cased form is not a key of
    the registry is rejected, and the error carries the fixed message
    "Tracking ID not found", the same for every such id. *)
Theorem fetchTracking_not_found (now id : string) :
  ROUTES !! toUpperCase id = None ->
  fetchTracking now id = Rejected {| message := "Tracking ID not found" |}.
Proof. intros H. unfold fetchTracking. now rewrite H. Qed.

Lemma fetchTracking_not_found_witness :
  ROUTES !! toUpperCase "ZZZ000" = None /\
  fetchTracking "2024-05-01T10:00:00.000Z" "ZZZ000" =
    Rejected {| message := "Tracking ID not found" |}.
Proof.
  split; [reflexivity|].
  apply (fetchTracking_not_found "2024-05-01T10:00:00.000Z" "ZZZ000").
  reflexivity.
Defined.

(** C4 as stated fails: "ZZZ000" is absent from the registry, and the
    message of the error it is rejected with does not identify it. *)
Lemma not_found_message_omits_id :
  ~ (forall now id, ROUTES !! toUpperCase id = None ->
       exists err, fetchTracking now id = Rejected err /\
                   identifies (message err) id = true).
Proof.
  intros H.
  destruct (H "2024-05-01T10:00:00.000Z" "ZZZ000" eq_refl) as (err & Hf & Hid).
  vm_compute in Hf. injection Hf as <-. vm_compute in Hid. discriminate.
Qed.

(** C8: the lookup started by a search is the registry lookup of the
    trimmed, upper-cased id; two inputs with the same normal form settle
    alike, with the same route data whenever they are looked up and the
    same result when looked up at the same instant; inputs that differ in
    letter case only, or in surrounding white space only, have the same
    normal form; "chn123" and "CHN123" both yield the route CHN123. *)
Theorem search_lookup_normalizes :
  (forall now raw,
     search_lookup now raw =
     match ROUTES !! normalize raw with
     | None => Rejected {| message := "Tracking ID not found" |}
     | Some data => Resolved (stamp data now)
     end) /\
  (forall now1 now2 a b, normalize a = normalize b ->
     route_data (search_lookup now1 a) = route_data (search_lookup now2 b) /\
     search_lookup now1 a = search_lookup now1 b) /\
  (forall a b, toUpperCase a = toUpperCase b -> normalize a = normalize b) /\
  (forall ws1 ws2 s, all_space ws1 = true -> all_space ws2 = true ->
     normalize (ws1 ++ s ++ ws2) = normalize s) /\
  (forall now1 now2,
     route_data (search_lookup now1 "chn123") = Some CHN123 /\
     route_data (search_lookup now2 "CHN123") = Some CHN123).
Proof.
  assert (E : forall now raw, search_lookup now raw =
     match ROUTES !! normalize raw with
     | None => Rejected {| message := "Tracking ID not found" |}
     | Some data => Resolved (stamp data now)
     end) by reflexivity.
  split; [exact E|]. split; [|split; [|split]].
  - intros now1 now2 a b H. rewrite !E, H.
    now destruct (ROUTES !! normalize b) as [[]|].
  - intros a b H. unfold normalize. now rewrite <- !trim_upper, H.
  - intros ws1 ws2 s H1 H2. unfold normalize. now rewrite trim_padding.
  - intros now1 now2. split; reflexivity.
Qed.

Lemma search_lookup_normalizes_witness :
  route_data (search_lookup "2024-05-01T10:00:00.000Z" "  chn123 ") =
  route_data (search_lookup "2024-05-02T08:30:00.000Z" "Chn123").
Proof.
  apply (proj1 (proj2 search_lookup_normalizes)
           "2024-05-01T10:00:00.000Z" "2024-05-02T08:30:00.000Z"
           "  chn123 " "Chn123").
  reflexivity.
Defined.

End ResolverProperties.

(** ** The progress index *)
Section ProgressProperties.
Import Resolver App.
Local Open Scope Z_scope.

Example ticks_example :
  let s := handleSearch "2024-05-01T10:00:00.000Z"
             {| trackingId := " chn123"; loading := false; error := "";
                info := None; idx := 0; follow := true |} in
  map (fun n => idx (ticks n s)) (seq 0 9) = [0; 1; 2; 3; 4; 5; 6; 6; 6] /\
  idx (ticks 3 (resetAll s)) = 0 /\
  error (handleSearch "2024-05-01T10:00:00.000Z" (resetAll s)) =
    "Tracking ID not found".
Proof. repeat split. Qed.

Lemma handleSearch_resolved now s i :
  search_lookup now (trackingId s) = Resolved i ->
  info (handleSearch now s) = Some i /\ idx (handleSearch now s) = 0.
Proof. intros H. unfold handleSearch. rewrite H. now split. Qed.

Lemma ticks_info n s : info (ticks n s) = info s.
Proof.
  induction n as [|n IH]; simpl; [reflexivity|].
  unfold tick. destruct (info (ticks n s)) eqn:E; simpl; congruence.
Qed.

Lemma tick_idx s i : info s = Some i -> idx (tick s) = advance i (idx s).
Proof. intros H. unfold tick. now rewrite H. Qed.

Lemma ticks_idx_succ n s i :
  info s = Some i -> idx (ticks (S n) s) = advance i (idx (ticks n s)).
Proof. intros H. simpl. apply tick_idx. now rewrite ticks_info. Qed.

Lemma ticks_from_zero n s i :
  info s = Some i -> idx s = 0 -> (1 <= length (info_path i))%nat ->
  idx (ticks n s) = Z.min (Z.of_nat n) (Z.of_nat (length (info_path i)) - 1).
Proof.
  intros Hi H0 Hlen. induction n as [|n IH].
  - simpl. lia.
  - rewrite (ticks_idx_succ n s i Hi), IH. unfold advance. lia.
Qed.

Lemma ticks_range n s i :
  info s = Some i ->
  0 <= idx s <= Z.of_nat (length (info_path i)) - 1 ->
  0 <= idx (ticks n s) <= Z.of_nat (length (info_path i)) - 1.
Proof.
  intros Hi H0. induction n as [|n IH]; [exact H0|].
  rewrite (ticks_idx_succ n s i Hi). unfold advance. lia.
Qed.

(** C1: while a route with a non-empty path is active, a tick sets the
    index to [min (idx + 1) last] with [last = length path - 1]; started
    at 0, the index is [last] after any number of ticks that is at least
    the length of the path; started within [0, last] it stays there and
    never decreases; and at [last] a tick changes nothing. *)
Theorem tick_advances_clamped (s : State) (i : Info) :
  info s = Some i ->
  (1 <= length (info_path i))%nat ->
  let last := Z.of_nat (length (info_path i)) - 1 in
  idx (tick s) = Z.min (idx s + 1) last /\
  (idx s = 0 ->
   forall N, (length (info_path i) <= N)%nat -> idx (ticks N s) = last) /\
  (0 <= idx s <= last ->
   forall n, 0 <= idx (ticks n s) <= last /\
             idx (ticks n s) <= idx (ticks (S n) s)) /\
  (idx s = last -> tick s = s).
Proof.
  intros Hi Hlen last. split; [|split; [|split]].
  - now rewrite (tick_idx s i Hi).
  - intros H0 N HN. rewrite (ticks_from_zero N s i Hi H0 Hlen). lia.
  - intros H0 n. pose proof (ticks_range n s i Hi H0) as Hn.
    split; [exact Hn|].
    rewrite (ticks_idx_succ n s i Hi). unfold advance. lia.
  - intros Hl. unfold tick. rewrite Hi. destruct s as [t l e inf ix f].
    simpl in *. subst inf. f_equal. unfold advance. lia.
Qed.

Lemma tick_advances_clamped_witness :
  let s := handleSearch "2024-05-01T10:00:00.000Z"
             {| trackingId := "blr555"; loading := false; error := "";
                info := None; idx := 0; follow := true |} in
  idx (tick s) = 1 /\ idx (ticks 5 s) = 4 /\ idx (ticks 9 s) = 4.
Proof.
  intros s.
  destruct (tick_advances_clamped s
              (stamp Routes.BLR555 "2024-05-01T10:00:00.000Z"))
    as (H1 & H2 & _).
  - reflexivity.
  - simpl. lia.
  - split; [exact H1|]. split; apply H2; simpl; first [reflexivity | lia].
Defined.

End ProgressProperties.

(** ** Formatting the ETA *)
Section FormatProperties.
Import Eta.
Local Open Scope string_scope.

Example formatETA_examples :
  formatETA (fun _ => "") 59.5 = "60 min" /\
  formatETA (fun _ => "") 0.25 = "0 min" /\
  formatETA (fun _ => "") 60 = "1h 0m" /\
  formatETA (fun _ => "") 119.75 = "1h 60m" /\
  formatETA (fun _ => "") (-0) = "0 min" /\
  formatETA (fun _ => "") infinity = placeholder.
Proof. repeat split. Qed.

Lemma SFcompare_antisym a b :
  SFcompare b a = option_map CompOpp (SFcompare a b).
Proof.
  destruct a as [s1|s1| |s1 m1 e1], b as [s2|s2| |s2 m2 e2];
    try destruct s1; try destruct s2; simpl; try reflexivity;
    rewrite (Z.compare_antisym e2 e1);
    destruct (e2 ?= e1)%Z; simpl; try reflexivity;
    change PosDef.Pos.compare_cont with Pos.compare_cont;
    rewrite (ZC4 m2 m1); now rewrite ?CompOpp_involutive.
Qed.

Lemma leb_not_ltb x y : (x <=? y)%float = true -> (y <? x)%float = false.
Proof.
  rewrite FloatAxioms.leb_spec, FloatAxioms.ltb_spec. unfold SFleb, SFltb.
  rewrite (SFcompare_antisym (Prim2SF x) (Prim2SF y)).
  now destruct (SFcompare (Prim2SF x) (Prim2SF y)) as [[]|].
Qed.

Lemma SFcompare_refl_finite s m e :
  SFcompare (S754_finite s m e) (S754_finite s m e) = Some Eq.
Proof.
  simpl. rewrite Z.compare_refl, Pcompare_refl. now destruct s.
Qed.

Lemma is_finite_between x hi :
  (0 <=? x)%float = true -> (x <? hi)%float = true -> is_finite x = true.
Proof.
  unfold is_finite, is_nan, is_infinity.
  rewrite FloatAxioms.leb_spec, FloatAxioms.ltb_spec, !FloatAxioms.eqb_spec,
    FloatAxioms.abs_spec.
  change (Prim2SF 0) with (S754_zero false).
  unfold SFleb, SFltb, SFeqb.
  destruct (Prim2SF x) as [s|s| |s m e] eqn:Ex.
  - reflexivity.
  - destruct s; [discriminate|].
    intros _. now destruct (Prim2SF hi) as [?|[]| |? ? ?].
  - discriminate.
  - intros _ _. now rewrite SFcompare_refl_finite.
Qed.

Lemma ltb_trans_const x : (x <? 0)%float = true -> (x <? 60)%float = true.
Proof.
  rewrite !FloatAxioms.ltb_spec. unfold SFltb.
  change (Prim2SF 0) with (S754_zero false).
  change (Prim2SF 60) with (S754_finite false 8444249301319680 (-47)).
  destruct (Prim2SF x) as [s|s| |s m e]; try destruct s; cbn [SFcompare];
    try reflexivity; try discriminate.
Qed.

(** C3: [formatETA] returns the placeholder on a number that is not
    finite or is negative; the rounded count followed by " min" when
    0 <= minutes < 60; and for a finite number from 60 on, the floor of
    minutes / 60 followed by "h ", then the rounded remainder modulo 60
    followed by "m".  It is a total function, and the five values the
    specification lists are as given. *)
Theorem formatETA_cases (exponential : Z -> string) (minutes : float) :
  (is_finite minutes = false \/ (minutes <? 0)%float = true ->
   formatETA exponential minutes = placeholder) /\
  ((0 <=? minutes)%float = true -> (minutes <? 60)%float = true ->
   formatETA exponential minutes =
   Number_toString exponential (Math_round (value minutes)) ++ " min") /\
  (is_finite minutes = true -> (60 <=? minutes)%float = true ->
   formatETA exponential minutes =
   Number_toString exponential (Math_floor (value (minutes / 60)%float))
   ++ "h " ++
   Number_toString exponential (Math_round (remainder (value minutes) 60))
   ++ "m") /\
  formatETA exponential 30 = "30 min" /\
  formatETA exponential 90 = "1h 30m" /\
  formatETA exponential 0 = "0 min" /\
  formatETA exponential (-5) = placeholder /\
  formatETA exponential nan = placeholder.
Proof.
  split; [|split; [|split]].
  - unfold formatETA. intros [H | H]; rewrite H; [reflexivity|].
    now rewrite orb_true_r.
  - intros H0 H60. unfold formatETA.
    rewrite (is_finite_between _ _ H0 H60), (leb_not_ltb _ _ H0), H60.
    reflexivity.
  - intros Hf H60. unfold formatETA.
    pose proof (leb_not_ltb _ _ H60) as Hn60.
    destruct (minutes <? 0)%float eqn:Hneg.
    + apply ltb_trans_const in Hneg. congruence.
    + now rewrite Hf, Hn60.
  - repeat split; vm_compute; reflexivity.
Qed.

Lemma formatETA_cases_witness :
  formatETA (fun _ => "") 45.5 = "46 min" /\
  formatETA (fun _ => "") 135 = "2h 15m" /\
  formatETA (fun _ => "") neg_infinity = placeholder.
Proof.
  split; [|split].
  - rewrite (proj1 (proj2 (formatETA_cases (fun _ => "") 45.5)));
      reflexivity.
  - rewrite (proj1 (proj2 (proj2 (formatETA_cases (fun _ => "") 135))));
      reflexivity.
  - apply (proj1 (formatETA_cases (fun _ => "") neg_infinity)).
    left. reflexivity.
Defined.

End FormatProperties.

(** ** Great-circle distance *)
Section GeoProperties.
Import Geo.
Local Open Scope R_scope.

Lemma hav_a_mix lat1 lon1 lat2 lon2 :
  hav_a lat1 lon1 lat2 lon2 =
  (1 - sin (toRad (lon2 - lon1) / 2) ^ 2) * sin (toRad (lat2 - lat1) / 2) ^ 2 +
  sin (toRad (lon2 - lon1) / 2) ^ 2 * cos ((toRad lat1 + toRad lat2) / 2) ^ 2.
Proof.
  unfold hav_a.
  set (u := toRad lat1 / 2). set (v := toRad lat2 / 2).
  replace (toRad (lat2 - lat1) / 2) with (v - u) by (unfold u, v, toRad; lra).
  replace ((toRad lat1 + toRad lat2) / 2) with (u + v) by (unfold u, v; lra).
  replace (toRad lat1) with (2 * u) by (unfold u; lra).
  replace (toRad lat2) with (2 * v) by (unfold v; lra).
  rewrite !cos_2a, sin_minus, cos_plus. ring.
Qed.

Lemma sq_sin_range x : 0 <= sin x ^ 2 <= 1.
Proof.
  pose proof (sin2_cos2 x) as H. unfold Rsqr in H.
  pose proof (pow2_ge_0 (sin x)). pose proof (pow2_ge_0 (cos x)). 
  split; [assumption|]. nra.
Qed.

Lemma sq_cos_range x : 0 <= cos x ^ 2 <= 1.
Proof.
  pose proof (sin2_cos2 x) as H. unfold Rsqr in H.
  pose proof (pow2_ge_0 (sin x)). pose proof (pow2_ge_0 (cos x)). 
  split; [assumption|]. nra.
Qed.

Lemma hav_a_range lat1 lon1 lat2 lon2 :
  0 <= hav_a lat1 lon1 lat2 lon2 <= 1.
Proof.
  rewrite hav_a_mix.
  pose proof (sq_sin_range (toRad (lon2 - lon1) / 2)).
  pose proof (sq_sin_range (toRad (lat2 - lat1) / 2)).
  pose proof (sq_cos_range ((toRad lat1 + toRad lat2) / 2)).
  split; nra.
Qed.

Lemma atan2_nonneg y x : 0 <= y -> 0 <= x -> 0 <= atan2 y x.
Proof.
  intros Hy Hx. unfold atan2.
  destruct (Rlt_dec 0 x) as [Hpos|Hn].
  - rewrite <- atan_0. destruct (Req_dec y 0) as [->|Hy0].
    + unfold Rdiv. rewrite Rmult_0_l. lra.
    + left. apply atan_increasing. apply Rdiv_lt_0_compat; lra.
  - destruct (Rlt_dec x 0); [lra|].
    destruct (Rlt_dec 0 y); [pose proof PI_RGT_0; lra|].
    destruct (Rlt_dec y 0); lra.
Qed.

Lemma atan2_zero_iff y x : 0 <= y -> 0 <= x -> (atan2 y x = 0 <-> y = 0).
Proof.
  intros Hy Hx. unfold atan2.
  destruct (Rlt_dec 0 x) as [Hpos|Hn].
  - split.
    + intros H. destruct (Req_dec y 0) as [|Hy0]; [assumption|].
      assert (0 < y / x) by (apply Rdiv_lt_0_compat; lra).
      pose proof (atan_increasing 0 (y / x) H0) as Hi. rewrite atan_0 in Hi. lra.
    + intros ->. unfold Rdiv. rewrite Rmult_0_l. apply atan_0.
  - destruct (Rlt_dec x 0); [lra|].
    destruct (Rlt_dec 0 y); [pose proof PI_RGT_0; lra|].
    destruct (Rlt_dec y 0); lra.
Qed.

Lemma haversineMeters_eq lat1 lon1 lat2 lon2 :
  haversineMeters (lat1, lon1) (lat2, lon2) =
  6371000 * (2 * atan2 (sqrt (hav_a lat1 lon1 lat2 lon2))
                       (sqrt (1 - hav_a lat1 lon1 lat2 lon2))).
Proof. reflexivity. Qed.

Lemma haversine_zero_hav_a lat1 lon1 lat2 lon2 :
  haversineMeters (lat1, lon1) (lat2, lon2) = 0 <->
  hav_a lat1 lon1 lat2 lon2 = 0.
Proof.
  pose proof (hav_a_range lat1 lon1 lat2 lon2) as [Ha0 Ha1].
  rewrite haversineMeters_eq.
  set (a := hav_a lat1 lon1 lat2 lon2) in *.
  pose proof (atan2_zero_iff (sqrt a) (sqrt (1 - a))
                (sqrt_pos _) (sqrt_pos _)) as Hz.
  split.
  - intros H. apply sqrt_eq_0; [assumption|]. apply Hz. lra.
  - intros H. rewrite H, sqrt_0 in *.
    replace (atan2 0 (sqrt (1 - 0))) with 0; [ring|].
    symmetry. now apply Hz.
Qed.

Lemma haversine_nonneg p q : 0 <= haversineMeters p q.
Proof.
  destruct p as [lat1 lon1], q as [lat2 lon2]. rewrite haversineMeters_eq.
  pose proof (atan2_nonneg (sqrt (hav_a lat1 lon1 lat2 lon2))
                (sqrt (1 - hav_a lat1 lon1 lat2 lon2))
                (sqrt_pos _) (sqrt_pos _)).
  lra.
Qed.

Lemma sq_sin_neg x : sin (- x) ^ 2 = sin x ^ 2.
Proof. rewrite sin_neg. ring. Qed.

Lemma hav_a_sym lat1 lon1 lat2 lon2 :
  hav_a lat1 lon1 lat2 lon2 = hav_a lat2 lon2 lat1 lon1.
Proof.
  unfold hav_a.
  replace (toRad (lat1 - lat2) / 2) with (- (toRad (lat2 - lat1) / 2))
    by (unfold toRad; lra).
  replace (toRad (lon1 - lon2) / 2) with (- (toRad (lon2 - lon1) / 2))
    by (unfold toRad; lra).
  rewrite !sq_sin_neg. ring.
Qed.

Lemma haversine_sym p q : haversineMeters p q = haversineMeters q p.
Proof.
  destruct p as [lat1 lon1], q as [lat2 lon2]. rewrite !haversineMeters_eq.
  now rewrite (hav_a_sym lat1 lon1 lat2 lon2).
Qed.

Lemma sin_zero_within x : - PI < x < PI -> sin x = 0 -> x = 0.
Proof.
  intros [Hl Hr] Hs.
  destruct (Rtotal_order x 0) as [Hneg | [H0 | Hpos]]; [|assumption|].
  - assert (Hp : 0 < sin (- x)) by (apply sin_gt_0; lra).
    rewrite sin_neg in Hp. lra.
  - assert (Hp : 0 < sin x) by (apply sin_gt_0; lra). lra.
Qed.

Lemma cos_zero_within x :
  - (PI / 2) <= x <= PI / 2 -> cos x = 0 -> x = PI / 2 \/ x = - (PI / 2).
Proof.
  intros [Hl Hr] Hc.
  destruct (Req_dec x (PI / 2)) as [|Hn1]; [now left|].
  destruct (Req_dec x (- (PI / 2))) as [|Hn2]; [now right|].
  assert (Hp : 0 < cos x) by (apply cos_gt_0; lra). lra.
Qed.

Lemma toRad_zero d : toRad d = 0 -> d = 0.
Proof. unfold toRad. pose proof PI_RGT_0 as Hpi. intros E. nra. Qed.

Lemma hav_a_zero_iff p q :
  valid_coordinate p -> valid_coordinate q ->
  (hav_a (fst p) (snd p) (fst q) (snd q) = 0 <-> same_point p q).
Proof.
  destruct p as [lat1 lon1], q as [lat2 lon2].
  unfold valid_coordinate, same_point. simpl.
  intros [Hlat1 Hlon1] [Hlat2 Hlon2].
  pose proof PI_RGT_0 as Hpi.
  split.
  - intros Ha. unfold hav_a in Ha.
    pose proof (pow2_ge_0 (sin (toRad (lat2 - lat1) / 2))) as HA.
    pose proof (pow2_ge_0 (sin (toRad (lon2 - lon1) / 2))) as HS.
    assert (Hc1 : 0 <= cos (toRad lat1))
      by (apply cos_ge_0; unfold toRad; nra).
    assert (Hc2 : 0 <= cos (toRad lat2))
      by (apply cos_ge_0; unfold toRad; nra).
    pose proof (Rmult_le_pos _ _ (Rmult_le_pos _ _ Hc1 Hc2) HS) as HB.
    assert (HA0 : sin (toRad (lat2 - lat1) / 2) ^ 2 = 0) by lra.
    assert (HB0 : cos (toRad lat1) * cos (toRad lat2) *
                  sin (toRad (lon2 - lon1) / 2) ^ 2 = 0) by lra.
    assert (Hlat : lat1 = lat2).
    { assert (E : toRad (lat2 - lat1) / 2 = 0).
      { apply sin_zero_within; [unfold toRad; nra|].
        apply Rsqr_eq_0. unfold Rsqr. lra. }
      assert (E0 : toRad (lat2 - lat1) = 0) by lra.
      apply toRad_zero in E0. lra. }
    split; [assumption|]. subst lat2.
    apply Rmult_integral in HB0 as [HB0 | HB0].
    + assert (Hc : cos (toRad lat1) = 0) by nra.
      apply cos_zero_within in Hc; [|unfold toRad; nra].
      unfold toRad in Hc. destruct Hc as [Hc | Hc].
      * right. left. nra.
      * right. right. left. nra.
    + assert (Hs : sin (toRad (lon2 - lon1) / 2) = 0)
        by (apply Rsqr_eq_0; unfold Rsqr; lra).
      destruct (Req_dec (lon2 - lon1) 360) as [|Hp]; [tauto|].
      destruct (Req_dec (lon2 - lon1) (-360)) as [|Hm]; [tauto|].
      left. apply sin_zero_within in Hs; [|unfold toRad; nra].
      assert (E0 : toRad (lon2 - lon1) = 0) by lra.
      apply toRad_zero in E0. lra.
  - intros [Hlat Hcase]. subst lat2. unfold hav_a.
    replace (toRad (lat1 - lat1) / 2) with 0 by (unfold toRad; lra).
    rewrite sin_0.
    destruct Hcase as [E | [E | [E | [E | E]]]].
    + subst lon2. replace (toRad (lon1 - lon1) / 2) with 0
        by (unfold toRad; lra).
      rewrite sin_0. ring.
    + subst lat1. replace (toRad 90) with (PI / 2) by (unfold toRad; lra).
      rewrite cos_PI2. ring.
    + subst lat1. replace (toRad (-90)) with (- (PI / 2))
        by (unfold toRad; lra).
      rewrite cos_neg, cos_PI2. ring.
    + rewrite E. replace (toRad 360 / 2) with PI by (unfold toRad; lra).
      rewrite sin_PI. ring.
    + rewrite E. replace (toRad (-360) / 2) with (- PI)
        by (unfold toRad; lra).
      rewrite sin_neg, sin_PI. ring.
Qed.

Example slice_examples :
  slice 0 3 [1; 2; 3; 4; 5]%nat = [1; 2; 3]%nat /\
  slice 0 9 [1; 2; 3; 4; 5]%nat = [1; 2; 3; 4; 5]%nat /\
  slice 0 (-1) [1; 2; 3; 4; 5]%nat = [1; 2; 3; 4]%nat /\
  slice 1 (-1) [1; 2; 3; 4; 5]%nat = [2; 3; 4]%nat /\
  slice 3 1 [1; 2; 3; 4; 5]%nat = []%nat.
Proof. repeat split. Qed.

Lemma loop_body_shift p path d i :
  (1 <= i)%nat -> loop_body (p :: path) d (S i) = loop_body path d i.
Proof.
  intros Hi. unfold loop_body.
  replace (S i - 1)%nat with (S (i - 1)) by lia. reflexivity.
Qed.

Lemma fold_loop_shift p path n : forall k d, (1 <= k)%nat ->
  fold_left (loop_body (p :: path)) (seq (S k) n) d =
  fold_left (loop_body path) (seq k n) d.
Proof.
  induction n as [|n IH]; intros k d Hk; simpl; [reflexivity|].
  rewrite (loop_body_shift p path d k Hk). apply IH. lia.
Qed.

Lemma fold_loop_sum path : forall d,
  fold_left (loop_body path) (seq 1 (length path - 1)) d =
  d + consecutive_sum path.
Proof.
  induction path as [|p rest IH]; intros d; simpl; [lra|].
  destruct rest as [|q rest']; simpl; [lra|].
  rewrite (fold_loop_shift p (q :: rest') (length rest') 1) by lia.
  simpl in IH. rewrite Nat.sub_0_r in IH. rewrite IH.
  unfold loop_body. simpl. lra.
Qed.

Lemma pathDistance_consecutive path :
  pathDistanceMeters path = consecutive_sum path.
Proof. unfold pathDistanceMeters. rewrite fold_loop_sum. lra. Qed.

Lemma consecutive_sum_nonneg path : 0 <= consecutive_sum path.
Proof.
  induction path as [|p [|q rest] IH]; simpl; try lra.
  pose proof (haversine_nonneg p q). simpl in IH. lra.
Qed.

Lemma consecutive_sum_firstn_step path : forall n,
  consecutive_sum (firstn n path) <= consecutive_sum (firstn (S n) path).
Proof.
  induction path as [|p rest IH]; intros n; [destruct n; simpl; lra|].
  destruct n as [|n]; [simpl; destruct rest; simpl; lra|].
  destruct rest as [|q rest'].
  - destruct n; simpl; lra.
  - destruct n as [|n].
    + simpl. pose proof (haversine_nonneg p q).
      pose proof (consecutive_sum_nonneg (firstn 1 (q :: rest'))) as Hn.
      simpl in Hn. lra.
    + specialize (IH (S n)).
      change (firstn (S (S n)) (p :: q :: rest'))
        with (p :: q :: firstn n rest').
      change (firstn (S (S (S n))) (p :: q :: rest'))
        with (p :: q :: firstn (S n) rest').
      change (firstn (S n) (q :: rest')) with (q :: firstn n rest') in IH.
      change (firstn (S (S n)) (q :: rest'))
        with (q :: firstn (S n) rest') in IH.
      change (consecutive_sum (p :: q :: firstn n rest'))
        with (haversineMeters p q + consecutive_sum (q :: firstn n rest')).
      change (consecutive_sum (p :: q :: firstn (S n) rest'))
        with (haversineMeters p q +
              consecutive_sum (q :: firstn (S n) rest')).
      lra.
Qed.

Lemma consecutive_sum_firstn_mono path n m :
  (n <= m)%nat ->
  consecutive_sum (firstn n path) <= consecutive_sum (firstn m path).
Proof.
  induction 1 as [|m _ IH]; [lra|].
  pose proof (consecutive_sum_firstn_step path m). lra.
Qed.

Lemma consecutive_sum_firstn_le path n :
  consecutive_sum (firstn n path) <= consecutive_sum path.
Proof.
  rewrite <- (firstn_all path) at 2.
  destruct (Nat.le_gt_cases n (length path)) as [H|H].
  - now apply consecutive_sum_firstn_mono.
  - rewrite (firstn_all2 path (n := n)) by lia. rewrite firstn_all. lra.
Qed.

Lemma slice_prefix {A} (stop : Z) (arr : list A) :
  slice 0 stop arr =
  firstn (Z.to_nat (relative_index (Z.of_nat (length arr)) stop)) arr.
Proof.
  unfold slice.
  assert (E : relative_index (Z.of_nat (length arr)) 0 = 0%Z).
  { unfold relative_index. simpl. lia. }
  rewrite E. simpl. now rewrite Z.sub_0_r.
Qed.

Lemma slice_upto {A} (i : Z) (arr : list A) :
  (0 <= i)%Z -> slice 0 (i + 1) arr = firstn (S (Z.to_nat i)) arr.
Proof.
  intros Hi. rewrite slice_prefix. unfold relative_index.
  destruct (i + 1 <? 0)%Z eqn:E; [lia|].
  destruct (Z.le_gt_cases (i + 1) (Z.of_nat (length arr))) as [H|H].
  - rewrite Z.min_l by lia. f_equal. lia.
  - rewrite Z.min_r by lia. rewrite Nat2Z.id, firstn_all.
    symmetry. apply firstn_all2. lia.
Qed.

Lemma consecutive_sum_cons p q rest :
  consecutive_sum (p :: q :: rest) =
  haversineMeters p q + consecutive_sum (q :: rest).
Proof. reflexivity. Qed.

Lemma consecutive_sum_snoc path z x :
  consecutive_sum ((path ++ [z]) ++ [x]) =
  consecutive_sum (path ++ [z]) + haversineMeters z x.
Proof.
  induction path as [|p rest IH].
  - simpl. lra.
  - destruct rest as [|q rest'].
    + simpl. lra.
    + change (((p :: q :: rest') ++ [z]) ++ [x])
        with (p :: q :: (rest' ++ [z]) ++ [x]).
      change ((p :: q :: rest') ++ [z]) with (p :: q :: rest' ++ [z]).
      rewrite !consecutive_sum_cons.
      change (q :: (rest' ++ [z]) ++ [x])
        with (((q :: rest') ++ [z]) ++ [x]).
      rewrite IH. simpl app. lra.
Qed.

Lemma consecutive_sum_rev path :
  consecutive_sum (rev path) = consecutive_sum path.
Proof.
  induction path as [|p rest IH]; [reflexivity|].
  destruct rest as [|q rest']; [reflexivity|].
  rewrite consecutive_sum_cons, <- IH.
  simpl rev. rewrite consecutive_sum_snoc, (haversine_sym q p). lra.
Qed.

(** Closes [valid_coordinate] at a literal coordinate. *)
Ltac valid_literal := unfold valid_coordinate; simpl; lra.

Lemma haversine_self p : haversineMeters p p = 0.
Proof.
  destruct p as [lat lon]. apply haversine_zero_hav_a.
  unfold hav_a.
  replace (toRad (lat - lat) / 2) with 0 by (unfold toRad; lra).
  replace (toRad (lon - lon) / 2) with 0 by (unfold toRad; lra).
  rewrite sin_0. ring.
Qed.

End GeoProperties.

(** ** Derived values: distances, ETA and progress *)
Section DerivedProperties.
Import Resolver Geo App.
Local Open Scope R_scope.

Lemma covered_le_total (path : list Coordinate) (stop : Z) :
  0 <= pathDistanceMeters (slice 0 stop path) <= pathDistanceMeters path.
Proof.
  rewrite !pathDistance_consecutive, slice_prefix. split.
  - apply consecutive_sum_nonneg.
  - apply consecutive_sum_firstn_le.
Qed.

Lemma distances_some (i : Info) (idx : Z) :
  exists d, distances (Some i) idx = Some d /\
    0 <= covered d <= total d /\
    remaining d = total d - covered d.
Proof.
  eexists. split; [reflexivity|]. simpl.
  pose proof (covered_le_total (info_path i) (idx + 1)) as [H0 H1].
  split; [lra|]. rewrite Rmax_right; lra.
Qed.

(** C9: the ETA in minutes is the remaining distance divided by the
    speed in metres per minute, [speedKmh * 1000 / 60] with [speedKmh]
    fixed at 35; so that many minutes at that speed cover exactly the
    remaining distance. *)
Theorem etaMinutes_formula (d : DistanceSnapshot) :
  speedKmh = 35 /\
  etaMinutes (Some d) = Some (remaining d / (speedKmh * 1000 / 60)) /\
  exists m, etaMinutes (Some d) = Some m /\
            m * (35 * 1000 / 60) = remaining d.
Proof.
  split; [reflexivity|]. split; [reflexivity|].
  eexists. split; [reflexivity|]. unfold speedKmh. field.
Qed.

Lemma or_zero_range r :
  0 <= r <= 100 -> exists p, or_zero (Fin r) = Fin p /\ 0 <= p <= 100.
Proof.
  intros Hr. unfold or_zero.
  destruct (Req_dec_T r 0); eexists; (split; [reflexivity | lra]).
Qed.

Lemma clamp_range x : 0 <= Rmin 100 (Rmax 0 x) <= 100.
Proof.
  split; [apply Rmin_glb; [lra | apply Rmax_l] | apply Rmin_l].
Qed.

Lemma progressPct_range (d : DistanceSnapshot) :
  exists p, progressPct (Some d) = Fin p /\ 0 <= p <= 100.
Proof.
  unfold progressPct, div.
  destruct (Req_dec_T (total d) 0) as [Ht|Ht].
  - destruct (Req_dec_T (covered d) 0) as [Hc|Hc].
    + exists 0. simpl. split; [reflexivity | lra].
    + destruct (Rlt_dec (covered d) 0); simpl.
      * apply or_zero_range. unfold Rmin. destruct (Rle_dec 100 0); lra.
      * apply or_zero_range. lra.
  - simpl. apply or_zero_range, clamp_range.
Qed.

(** C10: whatever the route and the index (and with no route at all),
    the progress percentage is a finite number between 0 and 100, never
    NaN; it is 0 when the total distance is 0. *)
Theorem progressPct_bounded (info : option Info) (idx : Z) :
  (exists p, progressPct (distances info idx) = Fin p /\ 0 <= p <= 100) /\
  progressPct (distances info idx) <> NaN /\
  (forall d, distances info idx = Some d -> total d = 0 ->
     progressPct (distances info idx) = Fin 0).
Proof.
  assert (Hfin : exists p, progressPct (distances info idx) = Fin p /\
                           0 <= p <= 100).
  { destruct info as [i|].
    - destruct (distances_some i idx) as (d & -> & _).
      apply progressPct_range.
    - exists 0. split; [reflexivity | lra]. }
  split; [exact Hfin|]. split.
  - destruct Hfin as (p & -> & _). discriminate.
  - intros d Hd Ht. destruct info as [i|]; [|discriminate].
    destruct (distances_some i idx) as (d' & Hd' & Hc & _).
    rewrite Hd in Hd'. injection Hd' as <-. rewrite Hd.
    assert (Hc0 : covered d = 0) by lra.
    unfold progressPct, div. rewrite Ht, Hc0.
    destruct (Req_dec_T 0 0); [reflexivity | lra].
Qed.

Lemma progressPct_bounded_witness :
  let i := {| info_trackingId := "ONE"; info_status := "In Transit";
              info_carrier := ""; info_origin := ""; info_destination := "";
              info_path := [(12.9716, 77.5946)];
              lastUpdated := "2024-05-01T10:00:00.000Z" |} in
  progressPct (distances (Some i) 0) = Fin 0.
Proof.
  intros i.
  apply (proj2 (proj2 (progressPct_bounded (Some i) 0))
           {| total := pathDistanceMeters (info_path i);
              covered := pathDistanceMeters (slice 0 (0 + 1) (info_path i));
              remaining :=
                Rmax 0 (pathDistanceMeters (info_path i) -
                        pathDistanceMeters (slice 0 (0 + 1) (info_path i))) |}).
  - reflexivity.
  - reflexivity.
Defined.

End DerivedProperties.

(* ================================================================== *)
(** * Part III: further properties of the code                         *)
(* ================================================================== *)

(** ** The registry and the search *)
Section RegistryProperties.
Import JsString Routes Resolver.
Local Open Scope string_scope.

Lemma ROUTES_lookup k data :
  ROUTES !! k = Some data ->
  (k = "CHN123" /\ data = CHN123) \/
  (k = "BLR555" /\ data = BLR555) \/
  (k = "MUM777" /\ data = MUM777).
Proof.
  unfold ROUTES. intros H.
  apply lookup_insert_Some in H as [[<- <-]|[_ H]]; [tauto|].
  apply lookup_insert_Some in H as [[<- <-]|[_ H]]; [tauto|].
  apply lookup_insert_Some in H as [[<- <-]|[_ H]]; [tauto|].
  rewrite lookup_empty in H. discriminate.
Qed.

Lemma ROUTES_key_is_id k data :
  ROUTES !! k = Some data -> trackingId data = k.
Proof.
  intros H. destruct (ROUTES_lookup k data H) as [[-> ->]|[[-> ->]|[-> ->]]];
    reflexivity.
Qed.

Lemma ROUTES_paths k data :
  ROUTES !! k = Some data ->
  (5 <= length (path data) <= 7)%nat /\ Forall valid_coordinate (path data).
Proof.
  intros H. destruct (ROUTES_lookup k data H) as [[-> ->]|[[-> ->]|[-> ->]]];
    (split; [simpl; lia |
             repeat constructor; unfold valid_coordinate; simpl; lra]).
Qed.

Lemma fetchTracking_resolved_inv now id i :
  fetchTracking now id = Resolved i ->
  exists data, ROUTES !! toUpperCase id = Some data /\ i = stamp data now.
Proof.
  unfold fetchTracking. destruct (ROUTES !! toUpperCase id) as [data|];
    [|discriminate].
  intros [= <-]. now exists data.
Qed.

Lemma resolved_path_nonempty now id i :
  fetchTracking now id = Resolved i -> (1 <= length (info_path i))%nat.
Proof.
  intros H. destruct (fetchTracking_resolved_inv now id i H) as (data & Hd & ->).
  destruct (ROUTES_paths _ _ Hd) as [Hlen _]. simpl. lia.
Qed.

(** X1: a lookup resolves exactly when the upper-cased id is one of
    CHN123, BLR555 and MUM777, and is rejected otherwise. *)
Theorem fetchTracking_resolves_iff (now id : string) :
  ((exists i, fetchTracking now id = Resolved i) <->
   In (toUpperCase id) ["CHN123"; "BLR555"; "MUM777"]) /\
  ((exists err, fetchTracking now id = Rejected err) <->
   ~ In (toUpperCase id) ["CHN123"; "BLR555"; "MUM777"]).
Proof.
  assert (Hres : (exists i, fetchTracking now id = Resolved i) <->
                 In (toUpperCase id) ["CHN123"; "BLR555"; "MUM777"]).
  { split.
    - intros [i Hi].
      destruct (fetchTracking_resolved_inv now id i Hi) as (data & Hd & _).
      destruct (ROUTES_lookup _ _ Hd) as [[-> _]|[[-> _]|[-> _]]];
        simpl; tauto.
    - unfold fetchTracking.
      intros [<-|[<-|[<-|[]]]]; eexists; reflexivity. }
  split; [exact Hres|]. rewrite <- Hres. split.
  - intros [err He] [i Hi]. congruence.
  - intros Hn. destruct (fetchTracking now id) as [i|err] eqn:E.
    + exfalso. apply Hn. now exists i.
    + now exists err.
Qed.

(** X2: what a lookup resolves to is well formed: its [trackingId] is the
    upper-cased id, its time stamp is the instant of resolution, its
    path has between 5 and 7 waypoints, and every waypoint is a valid
    coordinate. *)
Theorem resolved_info_well_formed (now id : string) (i : Info) :
  fetchTracking now id = Resolved i ->
  info_trackingId i = toUpperCase id /\
  lastUpdated i = now /\
  (5 <= length (info_path i) <= 7)%nat /\
  Forall valid_coordinate (info_path i).
Proof.
  intros H. destruct (fetchTracking_resolved_inv now id i H) as (data & Hd & ->).
  simpl. split; [now apply ROUTES_key_is_id|]. split; [reflexivity|].
  exact (ROUTES_paths _ _ Hd).
Qed.

Lemma resolved_info_well_formed_witness :
  info_trackingId (stamp MUM777 "2024-05-01T10:00:00.000Z") = "MUM777" /\
  Forall valid_coordinate (path MUM777).
Proof.
  destruct (resolved_info_well_formed "2024-05-01T10:00:00.000Z" "Mum777"
              (stamp MUM777 "2024-05-01T10:00:00.000Z") eq_refl)
    as (Hid & _ & _ & Hv).
  split; [exact Hid | exact Hv].
Defined.

(** X3: a search ends in one of two states.  If the normalized text is a
    key of the registry, the route is installed at index 0 with the error
    cleared; otherwise no route is installed and the error is "Tracking
    ID not found" (the fallback "Failed to fetch" is never shown).  Either
    way [loading] is off again and the text and the follow flag are
    untouched. *)
Theorem handleSearch_outcome (now : string) (s : App.State) :
  let s' := App.handleSearch now s in
  App.loading s' = false /\ App.idx s' = 0%Z /\
  App.trackingId s' = App.trackingId s /\ App.follow s' = App.follow s /\
  match ROUTES !! normalize (App.trackingId s) with
  | Some data => App.info s' = Some (stamp data now) /\ App.error s' = ""
  | None => App.info s' = None /\ App.error s' = "Tracking ID not found"
  end.
Proof.
  unfold App.handleSearch, search_lookup, fetchTracking.
  fold (normalize (App.trackingId s)).
  destruct (ROUTES !! normalize (App.trackingId s)); repeat split.
Qed.

End RegistryProperties.

(** ** The event machine *)
Section MachineProperties.
Import Resolver App Machine.
Local Open Scope Z_scope.

Lemma run_reachable es : forall m, reachable m -> reachable (run es m).
Proof.
  induction es as [|e rest IH]; intros m Hm; simpl; [exact Hm|].
  apply IH. destruct (enabled e m) eqn:E; [now apply reach_step | exact Hm].
Qed.

Lemma invariant_init : invariant init.
Proof. unfold invariant. simpl. repeat split; congruence. Qed.

Lemma invariant_step e m :
  invariant m -> enabled e m = true -> invariant (step e m).
Proof.
  destruct m as [[t l er inf ix f] p tm].
  unfold invariant. simpl. intros (Ht & Hl & Hp & Hi) He. subst tm.
  destruct e as [text| |now| | |checked]; simpl in *.
  - auto.
  - repeat split. now destruct inf.
  - destruct p as [id|]; [|discriminate].
    rewrite (Hp eq_refl) in *.
    destruct (fetchTracking now id) as [data|err] eqn:E; simpl.
    + repeat split; try congruence.
      * lia.
      * pose proof (resolved_path_nonempty now id data E). lia.
      * now exists now, id.
    + repeat split; congruence.
  - destruct inf as [i|]; [|discriminate]. simpl.
    destruct Hi as [Hr Hf]. repeat split; auto.
    + unfold advance. lia.
    + unfold advance. lia.
  - repeat split; auto.
  - auto.
Qed.

Lemma reachable_invariant m : reachable m -> invariant m.
Proof.
  induction 1 as [|e m Hm IH He]; [apply invariant_init|].
  now apply invariant_step.
Qed.

(** X4: in every state the page can reach, the live interval is the one
    that captured the current [info] (none when there is no route), so a
    tick is exactly [tick] on the state; [loading] is on exactly while a
    lookup is in flight, and no route is shown meanwhile; and the index
    is 0 without a route and within the bounds of the path with one. *)
Theorem reachable_state_consistent (m : Machine) :
  reachable m ->
  invariant m /\ st (step Tick m) = tick (st m).
Proof.
  intros Hm. pose proof (reachable_invariant m Hm) as Hinv.
  split; [exact Hinv|].
  destruct Hinv as (Ht & _). destruct m as [s p tm]. simpl in *. subst tm.
  unfold tick, with_idx. destruct (info s); reflexivity.
Qed.

Lemma reachable_state_consistent_witness :
  let m := run [Typed " chn123"; Submit; Tick; Settle "2024-05-01T10:00:00.000Z";
                Tick; Tick; Submit; Tick; Clear; Tick] init in
  invariant m.
Proof.
  intros m.
  apply (reachable_state_consistent m).
  apply run_reachable, reach_init.
Defined.

(** X5: Clear does not cancel a lookup in flight.  If the lookup resolves
    after the button was pressed, its route is installed all the same, at
    index 0 and with an interval started, under an empty text field. *)
Theorem clear_keeps_pending_lookup (m : Machine) (now id : string) (data : Info) :
  pending m = Some id ->
  fetchTracking now id = Resolved data ->
  let m' := step (Settle now) (step Clear m) in
  info (st m') = Some data /\ timer m' = Some data /\
  idx (st m') = 0 /\ trackingId (st m') = ""%string.
Proof.
  intros Hp Hf. simpl. rewrite Hp, Hf. simpl. repeat split.
Qed.

Lemma clear_keeps_pending_lookup_witness :
  let m := run [Typed "blr555"; Submit; Clear;
                Settle "2024-05-01T10:00:00.000Z"] init in
  info (st m) = Some (stamp Routes.BLR555 "2024-05-01T10:00:00.000Z").
Proof.
  intros m.
  apply (clear_keeps_pending_lookup
           (run [Typed "blr555"; Submit] init)
           "2024-05-01T10:00:00.000Z" "blr555"
           (stamp Routes.BLR555 "2024-05-01T10:00:00.000Z"));
    reflexivity.
Defined.

End MachineProperties.

(** ** The journey: distances, ETA and progress along the ticks *)
Section JourneyProperties.
Import Routes Resolver Geo App.
Local Open Scope R_scope.

Ltac in_range := unfold valid_coordinate; simpl; lra.

Lemma haversine_pos p q :
  valid_coordinate p -> valid_coordinate q -> fst p <> fst q ->
  0 < haversineMeters p q.
Proof.
  intros Hp Hq Hne. pose proof (haversine_nonneg p q) as H0.
  destruct (Req_dec (haversineMeters p q) 0) as [E|E]; [|lra].
  exfalso. apply Hne.
  assert (Hs : same_point p q).
  { apply (hav_a_zero_iff p q Hp Hq). destruct p, q.
    now apply haversine_zero_hav_a. }
  exact (proj1 Hs).
Qed.

Lemma pathDistance_pos p q rest :
  valid_coordinate p -> valid_coordinate q -> fst p <> fst q ->
  0 < pathDistanceMeters (p :: q :: rest).
Proof.
  intros Hp Hq Hne. rewrite pathDistance_consecutive, consecutive_sum_cons.
  pose proof (haversine_pos p q Hp Hq Hne).
  pose proof (consecutive_sum_nonneg (q :: rest)). lra.
Qed.

Lemma resolved_total_pos now id i :
  fetchTracking now id = Resolved i -> 0 < pathDistanceMeters (info_path i).
Proof.
  intros H. destruct (fetchTracking_resolved_inv now id i H) as (data & Hd & ->).
  destruct (ROUTES_lookup _ _ Hd) as [[_ ->]|[[_ ->]|[_ ->]]];
    (apply pathDistance_pos; [in_range | in_range | simpl; lra]).
Qed.

Lemma slice_whole {A} (stop : Z) (arr : list A) :
  (Z.of_nat (length arr) <= stop)%Z -> slice 0 stop arr = arr.
Proof.
  intros H. rewrite slice_prefix. unfold relative_index.
  destruct (Z.ltb_spec stop 0) as [E|E]; [lia|].
  rewrite Z.min_r by lia. rewrite Nat2Z.id. apply firstn_all.
Qed.

Lemma progress_ratio c t :
  0 <= c <= t -> t <> 0 ->
  or_zero (Math_min 100 (Math_max 0 (times (div c t) 100))) =
  Fin (c / t * 100).
Proof.
  intros Hc Ht. unfold div.
  destruct (Req_dec_T t 0) as [|_]; [contradiction|]. simpl.
  assert (Hy : 0 <= c / t <= 1).
  { assert (E : c / t * t = c) by (field; exact Ht).
    assert (0 < t) by lra.
    assert (0 < / t) by now apply Rinv_0_lt_compat.
    split; [unfold Rdiv; nra|]. unfold Rdiv in *. nra. }
  rewrite Rmax_right by lra. rewrite Rmin_right by lra.
  destruct (Req_dec_T (c / t * 100) 0) as [E|E]; [now rewrite E | reflexivity].
Qed.

(** X9: for a route the lookup resolved, at every index, the progress
    percentage is exactly [covered / total * 100]: neither the clamping
    to [0, 100] nor the fallback to 0 changes the value. *)
Theorem progressPct_is_ratio (now id : string) (i : Info) (idx : Z) :
  fetchTracking now id = Resolved i ->
  exists d, distances (Some i) idx = Some d /\
            progressPct (Some d) = Fin (covered d / total d * 100).
Proof.
  intros H. pose proof (resolved_total_pos now id i H) as Hpos.
  eexists. split; [reflexivity|].
  unfold progressPct. simpl.
  pose proof (covered_le_total (info_path i) (idx + 1)) as Hc.
  apply progress_ratio; [exact Hc | lra].
Qed.

Lemma progressPct_is_ratio_witness :
  exists d, distances (Some (stamp BLR555 "2024-05-01T10:00:00.000Z")) 2 = Some d /\
            progressPct (Some d) = Fin (covered d / total d * 100).
Proof.
  apply (progressPct_is_ratio "2024-05-01T10:00:00.000Z" "BLR555"
           (stamp BLR555 "2024-05-01T10:00:00.000Z") 2).
  reflexivity.
Defined.

(** X10: for a route the lookup resolved, the total distance is positive;
    at index 0 nothing is covered, the whole route remains and the
    progress is 0; from the last index on everything is covered, nothing
    remains, the ETA is 0 minutes and the progress is 100. *)
Theorem journey_endpoints (now id : string) (i : Info) (idx : Z) :
  fetchTracking now id = Resolved i ->
  exists d, distances (Some i) idx = Some d /\ 0 < total d /\
    (idx = 0%Z ->
       covered d = 0 /\ remaining d = total d /\
       progressPct (Some d) = Fin 0) /\
    ((Z.of_nat (length (info_path i)) - 1 <= idx)%Z ->
       covered d = total d /\ remaining d = 0 /\
       etaMinutes (Some d) = Some 0 /\ progressPct (Some d) = Fin 100).
Proof.
  intros H. pose proof (resolved_total_pos now id i H) as Hpos.
  pose proof (resolved_path_nonempty now id i H) as Hlen.
  eexists. split; [reflexivity|]. simpl. split; [exact Hpos|]. split.
  - intros ->. simpl.
    assert (E : pathDistanceMeters (slice 0 (0 + 1) (info_path i)) = 0).
    { rewrite pathDistance_consecutive, slice_upto by lia.
      destruct (info_path i) as [|p rest]; reflexivity. }
    rewrite E. replace (pathDistanceMeters (info_path i) - 0)
      with (pathDistanceMeters (info_path i)) by lra.
    split; [reflexivity|]. split; [rewrite Rmax_right; lra|].
    unfold progressPct. simpl. rewrite progress_ratio by lra.
    f_equal. unfold Rdiv. ring.
  - intros Hlast. rewrite slice_whole by lia.
    replace (pathDistanceMeters (info_path i) - pathDistanceMeters (info_path i))
      with 0 by lra.
    rewrite Rmax_left by lra.
    split; [reflexivity|]. split; [reflexivity|]. split.
    + unfold etaMinutes. simpl. f_equal. unfold speedKmh. field.
    + unfold progressPct. simpl. rewrite progress_ratio by lra.
      f_equal. field. lra.
Qed.

Lemma journey_endpoints_witness :
  exists d, distances (Some (stamp CHN123 "2024-05-01T10:00:00.000Z")) 6 = Some d /\
            etaMinutes (Some d) = Some 0 /\ progressPct (Some d) = Fin 100.
Proof.
  destruct (journey_endpoints "2024-05-01T10:00:00.000Z" "chn123"
              (stamp CHN123 "2024-05-01T10:00:00.000Z") 6 eq_refl)
    as (d & Hd & _ & _ & Hlast).
  exists d. split; [exact Hd|].
  destruct Hlast as (_ & _ & He & Hp); [simpl; lia|].
  split; [exact He | exact Hp].
Defined.

(** X11: a tick never loses ground.  For a route the lookup resolved and
    an index within its path, a tick leaves the total distance as it is,
    does not decrease the covered distance, and does not increase the
    remaining distance or the ETA, which stays at or above 0. *)
Theorem tick_never_loses_ground (now id : string) (s : State) (i : Info) :
  fetchTracking now id = Resolved i ->
  info s = Some i ->
  (0 <= idx s <= Z.of_nat (length (info_path i)) - 1)%Z ->
  exists d d' e e',
    distances (info s) (idx s) = Some d /\
    distances (info (tick s)) (idx (tick s)) = Some d' /\
    etaMinutes (Some d) = Some e /\ etaMinutes (Some d') = Some e' /\
    total d' = total d /\ covered d <= covered d' /\
    remaining d' <= remaining d /\ 0 <= e' <= e.
Proof.
  intros _ Hi Hr.
  assert (Ht : info (tick s) = Some i /\ idx (tick s) = advance i (idx s)).
  { unfold tick. rewrite Hi. simpl. now split. }
  destruct Ht as [Hti Htx]. rewrite Hi, Hti, Htx.
  do 4 eexists. repeat (split; [reflexivity|]). simpl.
  pose proof (covered_le_total (info_path i) (idx s + 1)) as H1.
  pose proof (covered_le_total (info_path i) (advance i (idx s) + 1)) as H2.
  assert (Hm : pathDistanceMeters (slice 0 (idx s + 1) (info_path i)) <=
               pathDistanceMeters (slice 0 (advance i (idx s) + 1) (info_path i))).
  { rewrite !pathDistance_consecutive.
    rewrite !slice_upto by (unfold advance; lia).
    apply consecutive_sum_firstn_mono. unfold advance. lia. }
  rewrite !Rmax_right by lra.
  split; [exact Hm|]. split; [lra|].
  unfold speedKmh. split.
  - apply Rmult_le_pos; [lra|]. left. apply Rinv_0_lt_compat. lra.
  - apply Rmult_le_compat_r; [|lra]. left. apply Rinv_0_lt_compat. lra.
Qed.

Lemma tick_never_loses_ground_witness :
  let s := handleSearch "2024-05-01T10:00:00.000Z"
             {| trackingId := "mum777"; loading := false; error := "";
                info := None; idx := 0; follow := true |} in
  exists d d', distances (info s) (idx s) = Some d /\
               distances (info (tick s)) (idx (tick s)) = Some d' /\
               remaining d' <= remaining d.
Proof.
  intros s.
  destruct (tick_never_loses_ground "2024-05-01T10:00:00.000Z" "mum777" s
              (stamp MUM777 "2024-05-01T10:00:00.000Z"))
    as (d & d' & e & e' & H1 & H2 & _ & _ & _ & _ & Hrem & _).
  - reflexivity.
  - reflexivity.
  - vm_compute. split; discriminate.
  - exists d, d'. split; [exact H1|]. split; [exact H2 | exact Hrem].
Defined.

End JourneyProperties.

(** ** What the map is given *)
Section MapViewProperties.
Import Resolver Geo App MapView Machine.
Local Open Scope Z_scope.

Lemma index_in_range {A} (arr : list A) k :
  0 <= k < Z.of_nat (length arr) ->
  exists x, index arr k = Some x /\ In x arr.
Proof.
  intros Hk. unfold index.
  destruct (Z.ltb_spec k 0) as [E|_]; [lia|].
  destruct (nth_error arr (Z.to_nat k)) as [x|] eqn:E.
  - exists x. split; [reflexivity|]. now apply nth_error_In in E.
  - apply nth_error_None in E. lia.
Qed.

Lemma index_none_iff {A} (arr : list A) k :
  index arr k = None <-> k < 0 \/ Z.of_nat (length arr) <= k.
Proof.
  unfold index. destruct (Z.ltb_spec k 0) as [E|E].
  - split; [now left | reflexivity].
  - rewrite nth_error_None. lia.
Qed.

Lemma index_firstn {A} (arr : list A) n k :
  k < Z.of_nat n -> index (firstn n arr) k = index arr k.
Proof.
  intros Hk. unfold index. destruct (Z.ltb_spec k 0) as [E|E]; [reflexivity|].
  rewrite nth_error_firstn.
  destruct (Nat.ltb_spec (Z.to_nat k) n) as [_|H]; [reflexivity | lia].
Qed.

(** X12: the marker has no position exactly when the path is empty or
    the index is negative; a larger index than the last one is clamped
    and still yields a waypoint. *)
Theorem marker_undefined_iff (i : Info) (idx : Z) :
  currentLatLng i idx = None <-> info_path i = [] \/ idx < 0.
Proof.
  unfold currentLatLng. rewrite index_none_iff.
  destruct (info_path i) as [|p rest]; simpl length.
  - split; [now left | intros _; lia].
  - split.
    + intros H. right. lia.
    + intros [H|H]; [discriminate | lia].
Qed.

(** X13: while the index is within the path, the travelled polyline is
    the first [idx + 1] waypoints, it ends at the marker, and its length
    in metres is the covered distance of the snapshot. *)
Theorem travelled_ends_at_marker (i : Info) (idx : Z) :
  0 <= idx <= Z.of_nat (length (info_path i)) - 1 ->
  exists p d,
    currentLatLng i idx = Some p /\
    travelled i idx = firstn (S (Z.to_nat idx)) (info_path i) /\
    Z.of_nat (length (travelled i idx)) = idx + 1 /\
    index (travelled i idx) idx = Some p /\
    distances (Some i) idx = Some d /\
    pathDistanceMeters (travelled i idx) = covered d.
Proof.
  intros Hr.
  assert (Ht : travelled i idx = firstn (S (Z.to_nat idx)) (info_path i)).
  { unfold travelled, upto. rewrite Z.max_r by lia. apply slice_upto. lia. }
  assert (Hc : currentLatLng i idx = index (info_path i) idx).
  { unfold currentLatLng. now rewrite Z.min_l by lia. }
  destruct (index_in_range (info_path i) idx) as (p & Hp & _); [lia|].
  exists p. eexists. split; [congruence|]. split; [exact Ht|]. split.
  - rewrite Ht, length_firstn. lia.
  - split; [rewrite Ht, index_firstn by lia; exact Hp|].
    split; [reflexivity|]. simpl.
    unfold travelled, upto. now rewrite Z.max_r by lia.
Qed.

Lemma travelled_ends_at_marker_witness :
  exists p, currentLatLng (stamp Routes.BLR555 "") 3 = Some p /\
            index (travelled (stamp Routes.BLR555 "") 3) 3 = Some p.
Proof.
  destruct (travelled_ends_at_marker (stamp Routes.BLR555 "") 3)
    as (p & d & H1 & _ & _ & H2 & _).
  - simpl. lia.
  - exists p. split; [exact H1 | exact H2].
Defined.

(** X14: in every state the page can reach with a route on display, the
    marker has a position, that position is a waypoint of the route and
    a valid coordinate, and the viewport is never asked to pan to
    nothing. *)
Theorem reachable_marker_defined (m : Machine) (i : Info) :
  reachable m ->
  info (st m) = Some i ->
  (exists p, currentLatLng i (idx (st m)) = Some p /\
             In p (info_path i) /\ valid_coordinate p) /\
  camera i (idx (st m)) (follow (st m)) <> PanTo None.
Proof.
  intros Hm Hi.
  destruct (reachable_invariant m Hm) as (_ & _ & _ & Hinv).
  rewrite Hi in Hinv. destruct Hinv as (Hr & now & id & Hf).
  assert (Hc : currentLatLng i (idx (st m)) = index (info_path i) (idx (st m))).
  { unfold currentLatLng. now rewrite Z.min_l by lia. }
  destruct (index_in_range (info_path i) (idx (st m))) as (p & Hp & Hin); [lia|].
  assert (Hsome : currentLatLng i (idx (st m)) = Some p) by congruence.
  split.
  - exists p. split; [exact Hsome|]. split; [exact Hin|].
    destruct (fetchTracking_resolved_inv now id i Hf) as (data & Hd & ->).
    destruct (ROUTES_paths _ _ Hd) as [_ Hall].
    exact (proj1 (List.Forall_forall _ _) Hall p Hin).
  - unfold camera. destruct (idx (st m) =? 0); [discriminate|].
    destruct (follow (st m)); [|discriminate].
    rewrite Hsome. discriminate.
Qed.

Lemma reachable_marker_defined_witness :
  let m := run [Typed "chn123"; Submit; Settle "2024-05-01T10:00:00.000Z";
                Tick; Tick] init in
  camera (stamp Routes.CHN123 "2024-05-01T10:00:00.000Z")
         (idx (st m)) (follow (st m)) <> PanTo None.
Proof.
  intros m.
  apply (reachable_marker_defined m
           (stamp Routes.CHN123 "2024-05-01T10:00:00.000Z")).
  - apply run_reachable, reach_init.
  - reflexivity.
Defined.

End MapViewProperties.

(** ** The text of an ETA *)
Section FormatTextProperties.
Import Eta.
Local Open Scope string_scope.

Lemma digits2_pos_size m : digits2_pos m = Pos.size m.
Proof. induction m as [m IH|m IH|]; simpl; congruence. Qed.

Lemma finite_mantissa_bound x s m e :
  Prim2SF x = S754_finite s m e -> (Z.pos m < 2 ^ 53)%Z.
Proof.
  intros H. pose proof (Prim2SF_valid x) as Hv. rewrite H in Hv.
  unfold SpecFloat.valid_binary, SpecFloat.bounded in Hv.
  apply andb_prop in Hv as [Hc _].
  unfold canonical_mantissa, fexp in Hc. apply Z.eqb_eq in Hc.
  rewrite digits2_pos_size in Hc.
  assert (Hd : (Z.pos (Pos.size m) <= 53)%Z) by (unfold FloatOps.prec in Hc; lia).
  pose proof (Pos.size_gt m) as Hs.
  apply Pos2Z.pos_lt_pos in Hs. rewrite Pos2Z.inj_pow in Hs.
  eapply Z.lt_le_trans; [exact Hs|].
  apply Z.pow_le_mono_r; lia.
Qed.

Lemma value_below_60 x :
  (0 <=? x)%float = true -> (x <? 60)%float = true ->
  (0 <= value x /\ value x < 60)%Q.
Proof.
  rewrite FloatAxioms.leb_spec, FloatAxioms.ltb_spec.
  change (Prim2SF 0) with (S754_zero false).
  change (Prim2SF 60) with (S754_finite false 8444249301319680 (-47)).
  unfold value, SFleb, SFltb.
  destruct (Prim2SF x) as [s|s| |s m e] eqn:Ex; cbn [SFcompare].
  - intros _ _. split; unfold Qle, Qlt; simpl; lia.
  - intros _ _. split; unfold Qle, Qlt; simpl; lia.
  - discriminate.
  - destruct s; [discriminate|]. intros _.
    pose proof (finite_mantissa_bound x false m e Ex) as Hm.
    destruct (Z.compare_spec e (-47)) as [He|He|He]; try discriminate.
    + subst e. intros Hc. change (0 <=? -47)%Z with false. cbv iota.
      assert (Hlt : (m < 8444249301319680)%positive).
      { unfold Pos.lt, Pos.compare.
        destruct (PosDef.Pos.compare_cont Eq m 8444249301319680); congruence. }
      apply Pos2Z.pos_lt_pos in Hlt.
      unfold Qle, Qlt. simpl Qnum. simpl Qden.
      change (Z.pos (2 ^ Z.to_pos (- -47))) with (2 ^ 47)%Z.
      split; lia.
    + intros _. destruct (Z.leb_spec 0 e) as [H0|H0]; [lia|].
      unfold Qle, Qlt. simpl Qnum. simpl Qden.
      rewrite Pos2Z.inj_pow.
      assert (Hp : (2 ^ 48 <= 2 ^ Z.pos (Z.to_pos (- e)))%Z)
        by (apply Z.pow_le_mono_r; lia).
      split; [lia|].
      change (2 ^ 53)%Z with (32 * 2 ^ 48)%Z in Hm. lia.
Qed.

Lemma Math_round_range q lo hi :
  (inject_Z lo <= q)%Q -> (q < inject_Z hi)%Q ->
  (lo <= Math_round q <= hi)%Z.
Proof.
  intros Hlo Hhi. unfold Math_round. split.
  - rewrite <- (Qfloor_Z lo). apply Qfloor_resp_le.
    revert Hlo. generalize (inject_Z lo). intros a Ha. Lqa.lra.
  - pose proof (Qfloor_le (q + (1#2))) as Hg.
    assert (Hlt : (inject_Z (Qfloor (q + (1#2))) < inject_Z (hi + 1))%Q).
    { rewrite inject_Z_plus. change (inject_Z 1) with 1%Q.
      revert Hg Hhi. generalize (inject_Z (Qfloor (q + (1#2)))).
      generalize (inject_Z hi). intros a b Hb Ha. Lqa.lra. }
    rewrite <- Zlt_Qlt in Hlt. lia.
Qed.

Lemma Number_toString_small exponential n :
  (0 <= n <= 60)%Z -> Number_toString exponential n = pretty n.
Proof.
  intros Hn. unfold Number_toString.
  destruct (Z.ltb_spec (Z.abs n) (2 ^ 53)) as [_|H]; [reflexivity|].
  assert ((60 < 2 ^ 53)%Z) by reflexivity. lia.
Qed.

Lemma remainder_range x :
  (0 <= x)%Q -> (0 <= remainder x 60 /\ remainder x 60 < 60)%Q.
Proof.
  intros Hx. unfold remainder, truncate.
  assert (Hq : (0 <= x / 60)%Q).
  { unfold Qdiv. apply Qmult_le_0_compat; [exact Hx|].
    unfold Qle. simpl. lia. }
  apply Qle_bool_iff in Hq as Hb. rewrite Hb.
  pose proof (Qfloor_le (x / 60)) as Hl.
  pose proof (Qlt_floor (x / 60)) as Hu.
  rewrite inject_Z_plus in Hu. change (inject_Z 1) with 1%Q in Hu.
  assert (E : (x == 60 * (x / 60))%Q) by field.
  revert Hl Hu E. generalize (inject_Z (Qfloor (x / 60))).
  generalize (x / 60)%Q. intros y k Hl Hu E. rewrite E. split; Lqa.lra.
Qed.

Lemma value_nonneg_from_60 x :
  is_finite x = true -> (60 <=? x)%float = true -> (0 <= value x)%Q.
Proof.
  rewrite FloatAxioms.leb_spec.
  change (Prim2SF 60) with (S754_finite false 8444249301319680 (-47)).
  unfold value, SFleb.
  destruct (Prim2SF x) as [s|s| |s m e] eqn:Ex; cbn [SFcompare];
    try (intros _ _; unfold Qle; simpl; lia).
  destruct s; [discriminate|]. intros _ _.
  destruct (0 <=? e)%Z; unfold Qle; simpl; lia.
Qed.





End FormatTextProperties.

(** ** The layers on the map *)
Section LayerProperties.
Import Resolver MapView Machine Layers.

Lemma removeLayer_head l rest :
  removeLayer l (l :: rest) = removeLayer l rest.
Proof. unfold removeLayer. simpl. now rewrite Nat.eqb_refl. Qed.

Lemma removeLayer_nil l : removeLayer l [] = [].
Proof. reflexivity. Qed.

Lemma clear_held v : onMap v = held v -> onMap (clear v) = [].
Proof.
  unfold clear, held. simpl. intros ->.
  destruct (fullLineRef v) as [a|], (travelledRef v) as [b|],
    (markerRef v) as [c|]; simpl;
    unfold removeLayer; simpl;
    repeat first
      [ rewrite Nat.eqb_refl; simpl
      | match goal with
        | |- context [(?x =? ?y)%nat] => destruct (x =? y)%nat; simpl
        end ];
    reflexivity.
Qed.

Lemma drawn_held v : drawn v -> onMap v = held v.
Proof.
  induction 1 as [|v Hv IH|i idx v v' Hv IH Hd].
  - reflexivity.
  - transitivity (@nil Layer); [now apply clear_held | reflexivity].
  - unfold draw in Hd. destruct (currentLatLng i idx) as [p|]; [|discriminate].
    injection Hd as <-. unfold held.
    cbn [onMap fullLineRef travelledRef markerRef].
    pose proof (clear_held v IH) as Hc. unfold clear in Hc.
    cbn [onMap] in Hc. now rewrite Hc.
Qed.

(** X17: however often the route is drawn and cleared, the map carries
    exactly the layers the three refs hold, never a leftover: after a
    clear none, and after a draw the route line, the travelled line up
    to the index and the marker at the current waypoint, in that order. *)
Theorem map_shows_held_layers (v : View) :
  drawn v ->
  onMap v = held v /\
  onMap (clear v) = [] /\
  (forall i idx v', draw i idx v = Some v' ->
     exists p, currentLatLng i idx = Some p /\
       map shape (onMap v') =
       [Polyline (info_path i) 4 (Some (6 # 10));
        Polyline (travelled i idx) 6 None;
        Marker p ("Parcel " ++ info_trackingId i)]).
Proof.
  intros Hv. pose proof (drawn_held v Hv) as Hh.
  split; [exact Hh|]. split; [now apply clear_held|].
  intros i idx v' Hd. unfold draw in Hd.
  destruct (currentLatLng i idx) as [p|]; [|discriminate].
  exists p. split; [reflexivity|]. injection Hd as <-.
  cbn [onMap]. pose proof (clear_held v Hh) as Hc. unfold clear in Hc.
  cbn [onMap] in Hc. now rewrite Hc.
Qed.

Lemma map_shows_held_layers_witness :
  exists p, currentLatLng (stamp Routes.BLR555 "") 1 = Some p /\
    forall v', draw (stamp Routes.BLR555 "") 1 (clear empty) = Some v' ->
    map shape (onMap v') =
    [Polyline (info_path (stamp Routes.BLR555 "")) 4 (Some (6 # 10));
     Polyline (travelled (stamp Routes.BLR555 "") 1) 6 None;
     Marker p ("Parcel " ++ info_trackingId (stamp Routes.BLR555 ""))].
Proof.
  destruct (map_shows_held_layers (clear empty) (drawn_clear _ drawn_empty))
    as (_ & _ & Hd).
  destruct (Hd (stamp Routes.BLR555 "") 1%Z _ eq_refl) as (p & Hp & Hs).
  exists p. split; [exact Hp|].
  intros v' Hv'. destruct (Hd _ _ _ Hv') as (q & Hq & Hs').
  rewrite Hp in Hq. injection Hq as <-. exact Hs'.
Defined.

End LayerProperties.

(* ================================================================== *)
(** * Part IV: the distances on binary64                               *)
(* ================================================================== *)

(** ** What the loop computes, whatever the engine *)
Section Binary64Properties.
Import Geo64.
Local Open Scope float_scope.

Lemma near_antipodal_leg E :
  ecma262 E -> reference_values E ->
  haversineMeters E (-87.5, -180) (87.5, 0) = nan.
Proof.
  intros (_ & _ & _ & Hnan & _) (Hs1 & Hs2 & Hc1 & Hc2 & Hp1 & Hp2).
  unfold haversineMeters.
  change (toRad (87.5 - -87.5) / 2) with 0x1.86f4291ecf2f3p+0.
  change (toRad (0 - -180) / 2) with 0x1.921fb54442d18p+0.
  change (toRad (-87.5)) with (-0x1.86f4291ecf2f3p+0).
  change (toRad 87.5) with 0x1.86f4291ecf2f3p+0.
  rewrite Hs1, Hs2, Hc1, Hc2, Hp1, Hp2.
  change (0x1.ff069da0c0ad2p-1 +
          0x1.65547c4694e32p-5 * 0x1.65547c4694e32p-5 * 1)
    with 0x1.0000000000001p+0.
  change (PrimFloat.sqrt (1 - 0x1.0000000000001p+0)) with nan.
  rewrite Hnan. reflexivity.
Qed.

Lemma near_antipodal_total E :
  ecma262 E -> reference_values E ->
  pathDistanceMeters E near_antipodal = nan.
Proof.
  intros He Hr.
  change (pathDistanceMeters E near_antipodal)
    with (0 + haversineMeters E (-87.5, -180) (87.5, 0)).
  rewrite (near_antipodal_leg E He Hr). reflexivity.
Qed.

Lemma tiny_step_leg E :
  ecma262 E -> haversineMeters E (0, 0) (0, 0x1p-1074) = 0.
Proof.
  intros (Hs & Hc & Hp & _ & Hat).
  unfold haversineMeters.
  change (toRad (0 - 0) / 2) with 0.
  change (toRad (0x1p-1074 - 0) / 2) with 0.
  change (toRad 0) with 0.
  rewrite Hs, Hc, Hp.
  change (0 + 1 * 1 * 0) with 0.
  change (PrimFloat.sqrt 0) with 0.
  change (PrimFloat.sqrt (1 - 0)) with 1.
  rewrite (Hat 1 eq_refl). reflexivity.
Qed.

Lemma loop_body64_shift E p path d i :
  (1 <= i)%nat -> loop_body E (p :: path) d (S i) = loop_body E path d i.
Proof.
  intros Hi. unfold loop_body.
  replace (S i - 1)%nat with (S (i - 1)) by lia. reflexivity.
Qed.

Lemma fold_loop64_shift E p path n : forall k d, (1 <= k)%nat ->
  fold_left (loop_body E (p :: path)) (seq (S k) n) d =
  fold_left (loop_body E path) (seq k n) d.
Proof.
  induction n as [|n IH]; intros k d Hk; simpl; [reflexivity|].
  rewrite (loop_body64_shift E p path d k Hk). apply IH. lia.
Qed.

Lemma fold_loop_legs E path : forall d,
  fold_left (loop_body E path) (seq 1 (length path - 1)) d =
  add_in_order d (legs E path).
Proof.
  induction path as [|p rest IH]; intros d; [reflexivity|].
  destruct rest as [|q rest']; [reflexivity|].
  change (length (p :: q :: rest') - 1)%nat with (S (length rest')).
  change (seq 1 (S (length rest'))) with (1%nat :: seq 2 (length rest')).
  cbn [fold_left]. rewrite (fold_loop64_shift E p (q :: rest') (length rest') 1) by lia.
  specialize (IH (loop_body E (p :: q :: rest') d 1)).
  change (length (q :: rest') - 1)%nat with (length rest' - 0)%nat in IH.
  rewrite Nat.sub_0_r in IH. rewrite IH. reflexivity.
Qed.

Lemma pathDistance_legs E path :
  pathDistanceMeters E path = add_in_order 0 (legs E path).
Proof. apply fold_loop_legs. Qed.

Lemma legs_firstn E path : forall n,
  legs E (firstn (S n) path) = firstn n (legs E path).
Proof.
  induction path as [|p rest IH]; intros n; [now destruct n|].
  destruct rest as [|q rest']; [now destruct n|].
  destruct n as [|n]; [reflexivity|].
  change (firstn (S (S n)) (p :: q :: rest'))
    with (p :: firstn (S n) (q :: rest')).
  specialize (IH n).
  change (firstn (S n) (q :: rest')) with (q :: firstn n rest') in *.
  change (legs E (p :: q :: firstn n rest'))
    with (haversineMeters E p q :: legs E (q :: firstn n rest')).
  rewrite IH. reflexivity.
Qed.

Lemma add_in_order_app d xs ys :
  add_in_order d (xs ++ ys) = add_in_order (add_in_order d xs) ys.
Proof. apply fold_left_app. Qed.

Lemma legs_snoc E path y x :
  legs E ((path ++ [y]) ++ [x]) = legs E (path ++ [y]) ++ [haversineMeters E y x].
Proof.
  induction path as [|p rest IH]; [reflexivity|].
  destruct rest as [|q rest']; [reflexivity|].
  change (((p :: q :: rest') ++ [y]) ++ [x])
    with (p :: ((q :: rest') ++ [y]) ++ [x]).
  change ((p :: q :: rest') ++ [y]) with (p :: (q :: rest') ++ [y]).
  change (legs E (p :: ((q :: rest') ++ [y]) ++ [x]))
    with (haversineMeters E p q :: legs E (((q :: rest') ++ [y]) ++ [x])).
  rewrite IH. reflexivity.
Qed.

Lemma legs_rev E path : legs E (rev path) = rev (legs_back E path).
Proof.
  induction path as [|p rest IH]; [reflexivity|].
  destruct rest as [|q rest']; [reflexivity|].
  change (rev (p :: q :: rest')) with ((rev rest' ++ [q]) ++ [p]).
  rewrite legs_snoc.
  change (rev rest' ++ [q]) with (rev (q :: rest')). rewrite IH.
  reflexivity.
Qed.

Lemma nan_eqb x : (nan =? x) = false.
Proof. rewrite FloatAxioms.eqb_spec. reflexivity. Qed.

Lemma leb_nan x : (x <=? nan) = false.
Proof.
  rewrite FloatAxioms.leb_spec. change (Prim2SF nan) with S754_nan.
  unfold SFleb. now destruct (Prim2SF x).
Qed.

(** The two conditions on an engine can be met together. *)
Lemma reference_engine_exists : exists E, ecma262 E /\ reference_values E.
Proof.
  exists {| Math_sin := fun x =>
              if x =? 0x1.86f4291ecf2f3p+0 then 0x1.ff833f9da45f7p-1
              else if x =? 0x1.921fb54442d18p+0 then 1 else x;
            Math_cos := fun x =>
              if abs x =? 0x1.86f4291ecf2f3p+0 then 0x1.65547c4694e32p-5
              else 1;
            Math_atan2 := fun y x =>
              if 0 <? x then (if y =? 0 then 0 else y) else nan;
            Math_pow := fun x y => x * x |}.
  split.
  - unfold ecma262. cbn [Math_sin Math_cos Math_atan2 Math_pow].
    repeat split; try reflexivity.
    intros x Hx. rewrite Hx. reflexivity.
  - unfold reference_values. repeat split.
Qed.






End Binary64Properties.

(** ** The routes of the registry *)
Section RegisteredRouteProperties.
Import Routes Resolver Geo App.
Local Open Scope R_scope.

Lemma registered_waypoint_box p :
  registered_waypoint p -> 12 <= fst p <= 20 /\ 72 <= snd p <= 81.
Proof.
  intros (key & data & Hd & Hin).
  destruct (ROUTES_lookup _ _ Hd) as [[_ ->]|[[_ ->]|[_ ->]]];
    simpl in Hin;
    repeat (destruct Hin as [<-|Hin]; [simpl; lra|]);
    contradiction.
Qed.

Lemma registered_waypoint_valid p :
  registered_waypoint p -> valid_coordinate p.
Proof.
  intros H. apply registered_waypoint_box in H. unfold valid_coordinate. lra.
Qed.

Lemma same_point_registered a b :
  registered_waypoint a -> registered_waypoint b -> same_point a b -> a = b.
Proof.
  intros Ha Hb [Hlat Hlon].
  apply registered_waypoint_box in Ha, Hb.
  destruct a as [la lo], b as [lb lo']. simpl in *.
  f_equal; [exact Hlat|].
  destruct Hlon as [E | [E | [E | [E | E]]]]; lra.
Qed.







End RegisteredRouteProperties.
